(** * AI storyboard: task queue, audio acquisition, compositor and export

    A shallow embedding of [src/index.tsx]: the bounded [RequestQueue], the
    scene list and its mutations, the audio-acquisition phase of
    [handleExportVideo], the per-scene timing and the frame loop of
    [recordVideo], and the export button of [Header].

    JavaScript numbers are modelled by exact rationals ([Q]) where the code
    computes with fractions (durations, rates, opacity) and by [Z] where it
    counts ([activeCount], [selectedImageIndex]).  Promises are modelled by
    the events that settle them. *)

From Stdlib Require Import List Permutation Sorted ZArith QArith Qminmax Bool String Ascii Lia Lqa.
Import ListNotations.

(* ================================================================== *)
(** * Part I: the embedding *)
(* ================================================================== *)

(** ** [class RequestQueue] (index.tsx, lines 195-216) *)

Module RequestQueue.

(** What the call [task()] does.  A task has type [() => Promise<void>]; an
    [async] arrow always returns a promise, but a plain function of that type
    may throw before it returns one. *)
Inductive invocation : Type :=
| ReturnsPromise
| ThrowsSync.

Record task : Type := mkTask {
  task_id : nat;
  invoke : invocation
}.

(** How a statement list ends: normally, or by an exception that escapes. *)
Inductive completion : Type :=
| Normal
| Throws.

(** The two private fields of the class, with three ghost fields that record
    what the environment can see: [pending] holds the tasks whose promise is
    returned and not yet settled (each has the [finally] callback attached),
    [started] logs every call [task()] in order, and [unhandled] counts the
    promises derived by [finally] that rejected with no handler. *)
Record t : Type := mk {
  queue : list task;
  activeCount : Z;
  pending : list task;
  started : list task;
  unhandled : nat
}.

Definition maxConcurrent : Z := 3.

(** [new RequestQueue()] *)
Definition init : t :=
  {| queue := []; activeCount := 0; pending := []; started := []; unhandled := 0 |}.

(** [private process()].  An exception thrown by [task()] leaves the method
    after [activeCount++]: no [finally] callback is attached. *)
Definition process (q : t) : t * completion :=
  if (maxConcurrent <=? activeCount q)%Z || (Nat.eqb (List.length (queue q)) 0)
  then (q, Normal)
  else
    match queue q with
    | [] => (q, Normal)
    | task :: rest =>
        let q1 := {| queue := rest;
                     activeCount := activeCount q + 1;
                     pending := pending q;
                     started := started q ++ [task];
                     unhandled := unhandled q |} in
        match invoke task with
        | ThrowsSync => (q1, Throws)
        | ReturnsPromise =>
            ({| queue := queue q1;
                activeCount := activeCount q1;
                pending := pending q1 ++ [task];
                started := started q1;
                unhandled := unhandled q1 |}, Normal)
        end
    end.

(** [this.queue.push(task)] *)
Definition push (task : task) (q : t) : t :=
  {| queue := queue q ++ [task];
     activeCount := activeCount q;
     pending := pending q;
     started := started q;
     unhandled := unhandled q |}.

(** [add(task)] *)
Definition add (task : task) (q : t) : t * completion :=
  process (push task q).

(** The callback given to [finally]: [this.activeCount--; this.process()]. *)
Definition onFinally (q : t) : t * completion :=
  process {| queue := queue q;
             activeCount := activeCount q - 1;
             pending := pending q;
             started := started q;
             unhandled := unhandled q |}.

Fixpoint removeAt {A : Type} (k : nat) (l : list A) : list A :=
  match l, k with
  | [], _ => []
  | _ :: l', O => l'
  | x :: l', S k' => x :: removeAt k' l'
  end.

(** The promise of the [k]-th pending task settles, fulfilled ([ok = true])
    or rejected.  The [finally] callback runs; the promise that [finally]
    returned rejects when the task rejected or the callback threw, and nobody
    handles it.  Settling a promise that is not pending is not an event. *)
Definition settle (k : nat) (ok : bool) (q : t) : t :=
  match nth_error (pending q) k with
  | None => q
  | Some _ =>
      let q0 := {| queue := queue q;
                   activeCount := activeCount q;
                   pending := removeAt k (pending q);
                   started := started q;
                   unhandled := unhandled q |} in
      let (q1, c) := onFinally q0 in
      match ok, c with
      | true, Normal => q1
      | _, _ => {| queue := queue q1;
                   activeCount := activeCount q1;
                   pending := pending q1;
                   started := started q1;
                   unhandled := S (unhandled q1) |}
      end
  end.

(** What happens to a queue: a caller adds a task, or a promise settles. *)
Inductive event : Type :=
| Add (task : task)
| Settle (k : nat) (ok : bool).

Definition step (q : t) (e : event) : t :=
  match e with
  | Add task => fst (add task q)
  | Settle k ok => settle k ok q
  end.

Definition run (q : t) (es : list event) : t := fold_left step es q.

(** The tasks of the [Add] events, in order. *)
Fixpoint added (es : list event) : list task :=
  match es with
  | [] => []
  | Add task :: es' => task :: added es'
  | Settle _ _ :: es' => added es'
  end.

(** The tasks of a list whose call threw: each keeps a slot for ever. *)
Definition leaked (l : list task) : list task :=
  filter (fun task => match invoke task with ThrowsSync => true | ReturnsPromise => false end) l.

Definition wellBehaved (task : task) : Prop := invoke task = ReturnsPromise.

(** The promise a task leaves behind: none when the call threw. *)
Definition promiseOf (job : task) : list task :=
  match invoke job with
  | ReturnsPromise => [job]
  | ThrowsSync => []
  end.

Definition outcomeOf (task : task) : completion :=
  match invoke task with
  | ReturnsPromise => Normal
  | ThrowsSync => Throws
  end.

(** The invariant of the queue, for the tasks [all] added so far: every
    occupied slot is a pending promise or a call that threw, no more than
    [maxConcurrent] slots are occupied, the tasks started and the tasks
    waiting are the tasks added, in that order, and nobody waits while a slot
    is free. *)
Record invariant (all : list task) (q : t) : Prop := mkInvariant {
  inv_slots :
    activeCount q
    = (Z.of_nat (List.length (pending q)) + Z.of_nat (List.length (leaked (started q))))%Z;
  inv_bound : (activeCount q <= maxConcurrent)%Z;
  inv_fifo : started q ++ queue q = all;
  inv_busy : queue q <> [] -> activeCount q = maxConcurrent
}.

(** A schedule of settlements, each of a promise that is pending when its
    turn comes. *)
Fixpoint settlesFrom (q : t) (ss : list (nat * bool)) : Prop :=
  match ss with
  | [] => True
  | (k, ok) :: later =>
      (k < List.length (pending q))%nat /\ settlesFrom (settle k ok q) later
  end.

Definition settleEvents (ss : list (nat * bool)) : list event :=
  map (fun s => Settle (fst s) (snd s)) ss.

(** Tasks of the examples: four whose call returns a promise, three whose
    call throws. *)

Definition jobA : task := mkTask 1 ReturnsPromise.
Definition jobB : task := mkTask 2 ReturnsPromise.
Definition jobC : task := mkTask 3 ReturnsPromise.
Definition jobD : task := mkTask 4 ReturnsPromise.
Definition boom1 : task := mkTask 11 ThrowsSync.
Definition boom2 : task := mkTask 12 ThrowsSync.
Definition boom3 : task := mkTask 13 ThrowsSync.

(** A state in which every slot is taken and no promise is pending: the
    tasks of [log] were started, and [waiting] is next. *)
Definition starved (log : list task) (waiting : task) (q : t) : Prop :=
  pending q = [] /\ activeCount q = maxConcurrent /\
  started q = log /\ hd_error (queue q) = Some waiting.


(** The queue after a burst of [tasks] that nothing interrupted. *)
Definition afterBurst (tasks : list task) : t :=
  mk (skipn 3 tasks) (Z.of_nat (Nat.min 3 (List.length tasks)))
     (firstn 3 tasks) (firstn 3 tasks) 0.

End RequestQueue.

(** ** Scenes and settings (index.tsx, lines 228-252) *)

Module Storyboard.

Definition bytes : Type := list Byte.byte.

(** [interface StoryboardScene].  The two optional fields are [None] when
    the property is absent. *)
Record StoryboardScene : Type := mkScene {
  id : Z;
  originalText : string;
  visualDescription : string;
  images : list string;
  selectedImageIndex : Z;
  isGeneratingImages : bool;
  audioData : option bytes;
  audioDuration : option Q
}.

Inductive TTSProviderType : Type :=
| gemini
| browser.

(** The fields of [AppSettings] that the export reads. *)
Record AppSettings : Type := mkSettings {
  ttsProvider : TTSProviderType;
  ttsVoice : string;
  ttsRate : Q;
  ttsPitch : Q
}.

(** Object spreads [{ ...s, field: value }]. *)
Definition withSelectedImageIndex (i : Z) (s : StoryboardScene) : StoryboardScene :=
  mkScene (id s) (originalText s) (visualDescription s) (images s) i
          (isGeneratingImages s) (audioData s) (audioDuration s).

Definition withImages (l : list string) (s : StoryboardScene) : StoryboardScene :=
  mkScene (id s) (originalText s) (visualDescription s) l (selectedImageIndex s)
          (isGeneratingImages s) (audioData s) (audioDuration s).

Definition withIsGeneratingImages (b : bool) (s : StoryboardScene) : StoryboardScene :=
  mkScene (id s) (originalText s) (visualDescription s) (images s) (selectedImageIndex s)
          b (audioData s) (audioDuration s).

Definition withAudioDuration (d : Q) (s : StoryboardScene) : StoryboardScene :=
  mkScene (id s) (originalText s) (visualDescription s) (images s) (selectedImageIndex s)
          (isGeneratingImages s) (audioData s) (Some d).

Definition withAudio (data : bytes) (d : Q) (s : StoryboardScene) : StoryboardScene :=
  mkScene (id s) (originalText s) (visualDescription s) (images s) (selectedImageIndex s)
          (isGeneratingImages s) (Some data) (Some d).

(** [prev.map(s => s.id === sceneId ? f(s) : s)], the shape of every
    [setScenes] updater. *)
Definition updateScene (sceneId : Z) (f : StoryboardScene -> StoryboardScene)
  (prev : list StoryboardScene) : list StoryboardScene :=
  map (fun s => if (id s =? sceneId)%Z then f s else s) prev.

(** A scene as [handleAnalyze] creates it (lines 610-617). *)
Definition newScene (sceneId : Z) (text description : string) : StoryboardScene :=
  mkScene sceneId text description [] 0 false None None.

(** [onSelectImage] of [SceneCard] (line 899). *)
Definition onSelectImage (sid imgIdx : Z) (prev : list StoryboardScene) : list StoryboardScene :=
  updateScene sid (withSelectedImageIndex imgIdx) prev.

(** The indices a rendered [SceneCard] offers to click (line 451-452):
    [scene.images.map((img, idx) => ...)]. *)
Definition offeredIndex (s : StoryboardScene) (idx : Z) : Prop :=
  (0 <= idx < Z.of_nat (List.length (images s)))%Z.

(** The three [setScenes] calls of the queued job of [triggerImageGeneration]
    (lines 643, 667-669, 671). *)
Definition generationStarted (sceneId : Z) (prev : list StoryboardScene) : list StoryboardScene :=
  updateScene sceneId (withIsGeneratingImages true) prev.

Definition generationCompleted (sceneId : Z) (newImages : list string)
  (prev : list StoryboardScene) : list StoryboardScene :=
  updateScene sceneId
    (fun s => withSelectedImageIndex 0 (withIsGeneratingImages false (withImages newImages s)))
    prev.

Definition generationFailed (sceneId : Z) (prev : list StoryboardScene) : list StoryboardScene :=
  updateScene sceneId (withIsGeneratingImages false) prev.

(** [handleRegenerateImages] (lines 676-679): the scene list after its
    [setScenes]; the call of [triggerImageGeneration] that follows only
    queues the job above. *)
Definition handleRegenerateImages (scene : StoryboardScene)
  (prev : list StoryboardScene) : list StoryboardScene :=
  updateScene (id scene) (withImages []) prev.

(** The invariant the data model states for [selectedImageIndex]. *)
Definition selectedIndexInRange (s : StoryboardScene) : Prop :=
  (0 <= selectedImageIndex s < Z.max 1 (Z.of_nat (List.length (images s))))%Z.

Definition selectedIndexInRangeb (s : StoryboardScene) : bool :=
  ((0 <=? selectedImageIndex s) &&
   (selectedImageIndex s <? Z.max 1 (Z.of_nat (List.length (images s)))))%Z.

(** A scene with four images, the third selected. *)
Definition thirdPicked : StoryboardScene :=
  mkScene 7 "A fox crosses the road." "fox, road, dusk"
          ["img0"; "img1"; "img2"; "img3"]%string 2 false None None.

End Storyboard.

(** ** Audio acquisition (index.tsx, lines 693-716) *)

Module Audio.
Import Storyboard.

(** What the speech request gives back: the call rejects, the response has no
    inline data, or it carries the bytes that [decodeBase64] returns. *)
Inductive tts_response : Type :=
| TtsRejects
| TtsNoData
| TtsData (rawBytes : bytes).

(** The browser and the service, as the export sees them. *)
Record Runtime : Type := mkRuntime {
  aiReady : bool;                                  (* [ai] is not null *)
  audioContext : bool;                             (* [getAudioContext()] is not null *)
  resumeRejects : bool;                            (* the context is suspended and [resume()] rejects *)
  synthesize : string -> string -> tts_response;   (* text, voice *)
  decodeAudioData : bytes -> option Q;             (* [buffer.duration]; [None]: rejects *)
  mediaRecorderDefined : bool;
  canvasContext : bool;                            (* [canvas.getContext('2d')] *)
  mimeTypeSupported : bool                         (* one of the three types is *)
}.

(** [scene.originalText || " "] (line 699): the empty string is the only falsy string. *)
Definition ttsText (scene : StoryboardScene) : string :=
  match originalText scene with
  | EmptyString => " "
  | String _ _ => originalText scene
  end.

(** White space as [String.prototype.trim] sees it, among the ASCII characters. *)
Definition isWhitespace (c : ascii) : bool :=
  let n := nat_of_ascii c in
  (Nat.eqb n 32 || Nat.eqb n 9 || Nat.eqb n 10 || Nat.eqb n 11 || Nat.eqb n 12 || Nat.eqb n 13)%bool.

Fixpoint whitespaceOnly (s : string) : bool :=
  match s with
  | EmptyString => true
  | String c rest => isWhitespace c && whitespaceOnly rest
  end.

(** [x || d] on numbers: [0] is falsy. *)
Definition numOr (x d : Q) : Q := if Qeq_bool x 0 then d else x.

Definition textLength (scene : StoryboardScene) : Q :=
  inject_Z (Z.of_nat (String.length (originalText scene))).

(** [Math.max(2, (scene.originalText.length || 1) * 0.25)] (line 714). *)
Definition fallbackDuration (scene : StoryboardScene) : Q :=
  Qmax 2 (numOr (textLength scene) 1 * (1 # 4)).


(** One callback of [updatedScenes.map(async (scene, index) => ...)]:
    [Some s] when it assigns [updatedScenes[index] = s], [None] when it
    returns without assigning.  Every failure inside the [try] is caught by
    the empty [catch]. *)
Definition audioCallback (rt : Runtime) (settings : AppSettings)
  (scene : StoryboardScene) : option StoryboardScene :=
  match audioData scene with
  | Some _ => None
  | None =>
      match ttsProvider settings, aiReady rt with
      | gemini, true =>
          match synthesize rt (ttsText scene) (ttsVoice settings) with
          | TtsData rawBytes =>
              match decodeAudioData rt rawBytes with
              | Some duration => Some (withAudio rawBytes duration scene)
              | None => None
              end
          | TtsNoData => None
          | TtsRejects => None
          end
      | _, _ => Some (withAudioDuration (fallbackDuration scene) scene)
      end
  end.

(** The element of [updatedScenes] at the callback's index once it is done. *)
Definition acquireAudio (rt : Runtime) (settings : AppSettings)
  (scene : StoryboardScene) : StoryboardScene :=
  match audioCallback rt settings scene with
  | Some updated => updated
  | None => scene
  end.

(** [updatedScenes[index] = value], for an index of the array. *)
Fixpoint writeAt {A : Type} (index : nat) (value : A) (l : list A) : list A :=
  match l, index with
  | [], _ => []
  | _ :: rest, O => value :: rest
  | x :: rest, S i => x :: writeAt i value rest
  end.

(** The callbacks run to their end in some order; each was given its own
    [scene] and [index] when [map] called it, and assigns at that index. *)
Fixpoint finishCallbacks (rt : Runtime) (settings : AppSettings)
  (scenes : list StoryboardScene) (order : list nat)
  (updatedScenes : list StoryboardScene) : list StoryboardScene :=
  match order with
  | [] => updatedScenes
  | index :: later =>
      finishCallbacks rt settings scenes later
        match nth_error scenes index with
        | Some scene =>
            match audioCallback rt settings scene with
            | Some updated => writeAt index updated updatedScenes
            | None => updatedScenes
            end
        | None => updatedScenes
        end
  end.

(** The speech request of a scene fails: it rejects, carries no data, or its
    bytes do not decode. *)
Definition synthesisFails (rt : Runtime) (settings : AppSettings)
  (scene : StoryboardScene) : Prop :=
  match synthesize rt (ttsText scene) (ttsVoice settings) with
  | TtsData rawBytes => decodeAudioData rt rawBytes = None
  | TtsNoData => True
  | TtsRejects => True
  end.

(** [updatedScenes] after [await Promise.all(updatedScenes.map(...))]: each
    callback has left its element at its index. *)
Definition acquireAll (rt : Runtime) (settings : AppSettings)
  (scenes : list StoryboardScene) : list StoryboardScene :=
  map (acquireAudio rt settings) scenes.

(** The state the data model asks for: buffer and duration both set or both unset. *)
Definition bothOrNeither (s : StoryboardScene) : Prop :=
  audioData s = None <-> audioDuration s = None.

(** What the code keeps: a buffer never comes without its duration. *)
Definition bufferHasDuration (s : StoryboardScene) : Prop :=
  audioData s <> None -> audioDuration s <> None.

(** No speech synthesis is configured or available (the [else] of line 712). *)
Definition noSynthesis (rt : Runtime) (settings : AppSettings) : Prop :=
  ttsProvider settings = browser \/ aiReady rt = false.

(** Runtimes, settings and scenes of the examples. *)

(** A service whose speech request always rejects. *)
Definition rejectingRuntime : Runtime :=
  mkRuntime true true false (fun _ _ => TtsRejects) (fun _ => None) true true true.


(** A service that answers three bytes which decode to a second and a half. *)
Definition speakingRuntime : Runtime :=
  mkRuntime true true false
    (fun _ _ => TtsData [Byte.x52; Byte.x49; Byte.x46])
    (fun _ => Some (3 # 2)) true true true.

Definition geminiAt (rate : Q) : AppSettings := mkSettings gemini "Kore" rate 0.
Definition browserAt (rate : Q) : AppSettings := mkSettings browser "Kore" rate 0.

Definition fortyChars : StoryboardScene :=
  newScene 1 "The lighthouse keeper climbs the stairs." "lighthouse, stairs".
Definition twelveChars : StoryboardScene := newScene 2 "Night falls." "dusk".
Definition eightChars : StoryboardScene := newScene 3 "Run now!" "runner".

Definition blankScene : StoryboardScene := newScene 4 "" "an empty room".

(** Two spaces, then a line feed. *)
Definition spacesAndNewline : string :=
  String " " (String " " (String (ascii_of_nat 10) EmptyString)).

End Audio.

(** ** [recordVideo] (index.tsx, lines 729-837) *)

Module Recorder.
Import Storyboard Audio.


(** [Math.max(0.1, Math.min(settings.ttsRate, 4.0))] (line 772). *)
Definition clampRate (configuredRate : Q) : Q :=
  Qmax (1 # 10) (Qmin configuredRate 4).

Definition clampedRate (settings : AppSettings) : Q :=
  clampRate (ttsRate settings).

(** [scene.audioDuration || 2] (line 784): an absent duration is falsy. *)
Definition durationOrDefault (scene : StoryboardScene) : Q :=
  match audioDuration scene with
  | Some d => numOr d 2
  | None => 2
  end.

(** Lines 771-785: [effectiveDuration], in milliseconds.  [None] when
    [decodeAudioData] rejects, which ends [recordVideo] by an exception. *)
Definition effectiveDuration (rt : Runtime) (settings : AppSettings)
  (scene : StoryboardScene) : option Q :=
  let rate := clampedRate settings in
  match audioData scene with
  | Some data =>
      match decodeAudioData rt data with
      | Some duration => Some ((duration / rate) * 1000)
      | None => None
      end
  | None => Some (durationOrDefault scene * 1000 / rate)
  end.

(** The same duration in seconds. *)
Definition effectiveSeconds (rt : Runtime) (settings : AppSettings)
  (scene : StoryboardScene) : option Q :=
  option_map (fun ms => ms / 1000) (effectiveDuration rt settings scene).

(** Two optional numbers are the same number, or both absent. *)
Definition sameNumber (a b : option Q) : Prop :=
  match a, b with
  | Some x, Some y => x == y
  | None, None => True
  | _, _ => False
  end.







(** [loadedImages] (lines 753-762): an image object, or [null] for a scene
    with no images. *)
Definition loadedImages (scenes : list StoryboardScene) : list bool :=
  map (fun scene => Nat.ltb 0 (List.length (images scene))) scenes.

(** [nextImg] of scene [i] (line 767). *)
Definition nextImgOf (scenes : list StoryboardScene) (i : nat) : bool :=
  if Nat.ltb i (List.length scenes - 1) then nth (S i) (loadedImages scenes) false else false.

Inductive outcome : Type :=
| Thrown                           (* an exception escapes *)
| ReturnedEarly                    (* line 739: no 2d context, nothing downloaded *)
| Downloaded (durations : list Q). (* [a.click()], after these scene durations *)

(** The durations of the scenes in order; an exception stops the loop. *)
Fixpoint sceneDurations (rt : Runtime) (settings : AppSettings)
  (scenes : list StoryboardScene) : option (list Q) :=
  match scenes with
  | [] => Some []
  | scene :: later =>
      match effectiveDuration rt settings scene with
      | None => None
      | Some d =>
          match sceneDurations rt settings later with
          | None => None
          | Some ds => Some (d :: ds)
          end
      end
  end.

Definition recordVideo (rt : Runtime) (settings : AppSettings)
  (scenesToRecord : list StoryboardScene) : outcome :=
  if negb (mediaRecorderDefined rt) then Thrown
  else if negb (canvasContext rt) then ReturnedEarly
  else if negb (mimeTypeSupported rt) then Thrown
  else
    match sceneDurations rt settings scenesToRecord with
    | Some ds => Downloaded ds
    | None => Thrown
    end.

End Recorder.

(** ** [handleExportVideo] and the export button (lines 681-727, 395-397) *)

Module Exporter.
Import Storyboard Audio Recorder.

Inductive progressText : Type :=
| ProgressNone       (* the empty string *)
| ProgressSpeech     (* the text shown while speech is generated *)
| ProgressRender.    (* the text shown while the video is rendered *)

(** What a call of [handleExportVideo] does to the application, in order.
    The per-scene progress texts of [recordVideo] are left out. *)
Inductive effect : Type :=
| SetIsExporting (b : bool)
| SetExportProgress (p : progressText)
| SetScenes (l : list StoryboardScene)
| AcquireAudio (scene : StoryboardScene)
| RecordVideo (l : list StoryboardScene)
| Download
| Alert.

(** A whole call of [handleExportVideo] on the scenes it closed over. *)
Definition handleExportVideo (rt : Runtime) (settings : AppSettings)
  (scenes : list StoryboardScene) : list effect :=
  if Nat.eqb (List.length scenes) 0 then []
  else if negb (audioContext rt) then [Alert]
  else
    let updatedScenes := acquireAll rt settings scenes in
    [SetIsExporting true; SetExportProgress ProgressSpeech]
    ++ (if resumeRejects rt then [Alert]
        else
          map AcquireAudio scenes
          ++ [SetScenes updatedScenes; SetExportProgress ProgressRender;
              RecordVideo updatedScenes]
          ++ match recordVideo rt settings updatedScenes with
             | Downloaded _ => [Download]
             | ReturnedEarly => []
             | Thrown => [Alert]
             end)
    ++ [SetIsExporting false; SetExportProgress ProgressNone].

(** The part of [AppContent]'s state that the export touches.  [inFlight]
    holds the scene list each running call of [handleExportVideo] closed
    over, from its [setIsExporting(true)] to its [finally]. *)
Record state : Type := mkState {
  scenes : list StoryboardScene;
  isExporting : bool;
  exportProgress : progressText;
  inFlight : list (list StoryboardScene)
}.

Definition initial : state := mkState [] false ProgressNone [].

(** Lines 682-687, the statements that run before the first [await]. *)
Definition enterExport (rt : Runtime) (st : state) : state :=
  if Nat.eqb (List.length (scenes st)) 0 then st
  else if negb (audioContext rt) then st
  else mkState (scenes st) true ProgressSpeech (inFlight st ++ [scenes st]).

(** Lines 723-726, the [finally] of the oldest running call. *)
Definition leaveExport (st : state) : state :=
  match inFlight st with
  | [] => st
  | _ :: later => mkState (scenes st) false ProgressNone later
  end.

(** [<button onClick={onExport} disabled={isExporting}>]: a disabled button
    dispatches no click. *)
Definition clickExport (rt : Runtime) (st : state) : state :=
  if isExporting st then st else enterExport rt st.

Inductive event : Type :=
| ClickExport
| ExportSettled
| ScenesChanged (l : list StoryboardScene).

Definition step (rt : Runtime) (st : state) (e : event) : state :=
  match e with
  | ClickExport => clickExport rt st
  | ExportSettled => leaveExport st
  | ScenesChanged l => mkState l (isExporting st) (exportProgress st) (inFlight st)
  end.

Definition run (rt : Runtime) (st : state) (es : list event) : state :=
  fold_left (step rt) es st.

(** In every reachable state the flag [isExporting] says whether a call of
    [handleExportVideo] is running, and at most one is. *)
Definition oneExport (st : state) : Prop :=
  (isExporting st = false /\ inFlight st = [])
  \/ (isExporting st = true /\ exists snapshot, inFlight st = [snapshot]).

End Exporter.

(** ** [handleDrop] (index.tsx, lines 839-846) *)

Module Reorder.
Import Storyboard.

(** [l.splice(start, 0, item)]: a start past the end is clamped to the end. *)
Fixpoint insertAt {A : Type} (start : nat) (item : A) (l : list A) : list A :=
  match start, l with
  | O, _ => item :: l
  | S _, [] => [item]
  | S start', x :: rest => x :: insertAt start' item rest
  end.

(** [handleDrop(targetIndex)] on the state [(scenes, draggedIndex)].  The
    result is [None] when [draggedIndex] is no index of [scenes]: the first
    [splice] then removes nothing and the second inserts [undefined], which
    is no scene. *)
Definition handleDrop (targetIndex : nat)
  (state : list StoryboardScene * option nat)
  : option (list StoryboardScene * option nat) :=
  let (scenes, draggedIndex) := state in
  match draggedIndex with
  | None => Some state
  | Some dragged =>
      if Nat.eqb dragged targetIndex then Some state
      else
        match nth_error scenes dragged with
        | None => None
        | Some item =>
            Some (insertAt targetIndex item (RequestQueue.removeAt dragged scenes), None)
        end
  end.

(** The identities of the scenes, in order. *)
Definition sceneIds (scenes : list StoryboardScene) : list Z := map id scenes.

End Reorder.

(** ** Persistence of the scenes (index.tsx, lines 69-84, 116-157, 506-540) *)

Module Persistence.
Import Storyboard.

(** The object store [scenes], whose key path is [id]: its records in
    ascending order of key, one record per key. *)
Definition objectStore : Type := list StoryboardScene.

(** [store.put(scene)]: the record of the same key is replaced. *)
Fixpoint put (scene : StoryboardScene) (store : objectStore) : objectStore :=
  match store with
  | [] => [scene]
  | record :: later =>
      match (id scene ?= id record)%Z with
      | Lt => scene :: store
      | Eq => scene :: later
      | Gt => record :: put scene later
      end
  end.

(** How one database operation goes: [openDB()] rejects, the request fires
    [onerror], or the request succeeds. *)
Inductive dbOutcome : Type :=
| OpenFails
| RequestFails
| DbOk.

(** [dbPutScene] (lines 133-144).  The [catch] sees a rejection of
    [openDB()] only: the promise of the request is returned, not awaited, so
    its rejection goes to the caller. *)
Definition dbPutScene (outcome : dbOutcome) (scene : StoryboardScene)
  (store : objectStore) : objectStore * RequestQueue.completion :=
  match outcome with
  | OpenFails => (store, RequestQueue.Normal)
  | RequestFails => (store, RequestQueue.Throws)
  | DbOk => (put scene store, RequestQueue.Normal)
  end.

(** [dbGetAllScenes] (lines 117-130): [None] when the promise rejects. *)
Definition dbGetAllScenes (outcome : dbOutcome) (store : objectStore)
  : option (list StoryboardScene) :=
  match outcome with
  | OpenFails => Some []
  | RequestFails => None
  | DbOk => Some store
  end.

(** [dbClearStore] (lines 146-157). *)
Definition dbClearStore (outcome : dbOutcome) (store : objectStore)
  : objectStore * RequestQueue.completion :=
  match outcome with
  | OpenFails => (store, RequestQueue.Normal)
  | RequestFails => (store, RequestQueue.Throws)
  | DbOk => ([], RequestQueue.Normal)
  end.

(** [for (const s of scenes) await dbPutScene(s)] (line 537); [outcomes k]
    is how the [k]-th operation from [first] goes.  A rejection leaves the
    loop. *)
Fixpoint saveAll (outcomes : nat -> dbOutcome) (first : nat)
  (scenes : list StoryboardScene) (store : objectStore)
  : objectStore * RequestQueue.completion :=
  match scenes with
  | [] => (store, RequestQueue.Normal)
  | scene :: later =>
      match dbPutScene (outcomes first) scene store with
      | (store', RequestQueue.Normal) => saveAll outcomes (S first) later store'
      | (store', RequestQueue.Throws) => (store', RequestQueue.Throws)
      end
  end.

(** The effect of lines 534-540: [if (scenes.length > 0) saveAll()]. *)
Definition saveEffect (outcomes : nat -> dbOutcome)
  (scenes : list StoryboardScene) (store : objectStore) : objectStore :=
  match scenes with
  | [] => store
  | _ :: _ => fst (saveAll outcomes 0 scenes store)
  end.

(** [array.sort((a, b) => a.id - b.id)]: the stable sort by [id]. *)
Fixpoint insertById (scene : StoryboardScene) (sorted : list StoryboardScene)
  : list StoryboardScene :=
  match sorted with
  | [] => [scene]
  | x :: later =>
      if (id scene <=? id x)%Z then scene :: sorted else x :: insertById scene later
  end.

Definition sortById (scenes : list StoryboardScene) : list StoryboardScene :=
  fold_right insertById [] scenes.

(** The scenes part of [loadData] (lines 519-522): the list given to
    [setScenes], or [None] when the rejection is caught and the scene list
    is left as it is. *)
Definition loadScenes (outcome : dbOutcome) (store : objectStore)
  : option (list StoryboardScene) :=
  option_map sortById (dbGetAllScenes outcome store).

(** Every operation succeeds. *)
Definition allOk : nat -> dbOutcome := fun _ => DbOk.

(** The store after every scene of a list was put into it, in order. *)
Definition putAll (scenes : list StoryboardScene) (store : objectStore) : objectStore :=
  fold_left (fun st scene => put scene st) scenes store.

(** The records of a store stand in strictly ascending order of [id]. *)
Definition ascending (l : list StoryboardScene) : Prop :=
  StronglySorted (fun a b => (id a < id b)%Z) l.

End Persistence.

(** ** The canvas of [recordVideo] (index.tsx, lines 266-271, 732-737, 797-807) *)

Module Canvas.



(** The arguments [x, y, w, h] of [ctx.drawImage(img, x, y, w, h)]. *)
Record rect : Type := mkRect {
  rectX : Q;
  rectY : Q;
  rectW : Q;
  rectH : Q
}.

(** Lines 804-807 (and 817-820 for the next image). *)
Definition coverFit (width height imgWidth imgHeight : Q) : rect :=
  let imgScale := Qmax (width / imgWidth) (height / imgHeight) in
  {| rectX := (width - imgWidth * imgScale) / 2;
     rectY := (height - imgHeight * imgScale) / 2;
     rectW := imgWidth * imgScale;
     rectH := imgHeight * imgScale |}.


End Canvas.

(** ** Image generation (index.tsx, lines 218, 439, 565-679) *)

Module Generation.
Import Storyboard.

Inductive ImageModelType : Type :=
| geminiImages
| comfyui.

(** A part of a response: only one with [inlineData] gives an image. *)
Inductive part : Type :=
| OtherPart
| InlineData (mimeType data : string).

(** What one [generateContent] call gives: it rejects, or it responds with
    the parts of its first candidate, if there are any. *)
Inductive response : Type :=
| Rejected
| Responded (parts : option (list part)).

(** [`data:${mimeType};base64,${data}`] (line 660). *)
Definition dataUrl (mimeType data : string) : string :=
  ("data:" ++ mimeType ++ ";base64," ++ data)%string.

(** The [forEach] over the parts of one response (lines 659-661). *)
Definition imagesOfParts (parts : list part) : list string :=
  flat_map (fun p => match p with
                     | OtherPart => []
                     | InlineData mimeType data => [dataUrl mimeType data]
                     end) parts.

(** [await Promise.all(requests)] then the [forEach] over the responses:
    [None] when a request rejected, which the [catch] of line 670 takes. *)
Fixpoint imagesOfResponses (responses : list response) : option (list string) :=
  match responses with
  | [] => Some []
  | Rejected :: _ => None
  | Responded parts :: later =>
      match imagesOfResponses later with
      | None => None
      | Some images =>
          Some (match parts with
                | Some ps => imagesOfParts ps
                | None => []
                end ++ images)
      end
  end.

(** The four placeholder addresses of line 664. *)
Definition comfyUiStubs : list string :=
  ["https://via.placeholder.com/1280x720/333/ccc?text=ComfyUI+Stub+0";
   "https://via.placeholder.com/1280x720/333/ccc?text=ComfyUI+Stub+1";
   "https://via.placeholder.com/1280x720/333/ccc?text=ComfyUI+Stub+2";
   "https://via.placeholder.com/1280x720/333/ccc?text=ComfyUI+Stub+3"]%string.

(** Lines 645-665: [newImages], or [None] when the [try] is left by an
    exception.  [responses] are the answers to the four requests. *)
Definition newImagesOf (imageModel : ImageModelType) (responses : list response)
  : option (list string) :=
  match imageModel with
  | geminiImages => imagesOfResponses responses
  | comfyui => Some comfyUiStubs
  end.

(** The last [setScenes] of the queued job (lines 667-672). *)
Definition jobDone (sceneId : Z) (result : option (list string))
  (prev : list StoryboardScene) : list StoryboardScene :=
  match result with
  | Some newImages => generationCompleted sceneId newImages prev
  | None => generationFailed sceneId prev
  end.

(** The scenes and the queue of the application.  [targets] lists, for every
    task ever given to the queue, the [sceneId] its closure holds; a task is
    named by its place in that list. *)
Record app : Type := mkApp {
  scenes : list StoryboardScene;
  imageGenQueue : RequestQueue.t;
  targets : list Z
}.

Definition sceneOf (targets : list Z) (task : RequestQueue.task) : Z :=
  nth (RequestQueue.task_id task) targets 0%Z.

(** The tasks a queue operation has started. *)
Definition newlyStarted (before after : RequestQueue.t) : list RequestQueue.task :=
  skipn (List.length (RequestQueue.started before)) (RequestQueue.started after).

(** A started job runs to its first [await]: line 643. *)
Definition startJobs (targets : list Z) (tasks : list RequestQueue.task)
  (prev : list StoryboardScene) : list StoryboardScene :=
  fold_left (fun l task => generationStarted (sceneOf targets task) l) tasks prev.

(** [triggerImageGeneration(sceneId, ...)] (lines 631-674): nothing when
    [ai] is null; otherwise an [async] closure, whose call always returns a
    promise, is added to the queue. *)
Definition triggerImageGeneration (ai : bool) (sceneId : Z) (a : app) : app :=
  if ai then
    let task := RequestQueue.mkTask (List.length (targets a)) RequestQueue.ReturnsPromise in
    let queue' := fst (RequestQueue.add task (imageGenQueue a)) in
    let targets' := targets a ++ [sceneId] in
    mkApp (startJobs targets' (newlyStarted (imageGenQueue a) queue') (scenes a))
          queue' targets'
  else a.

(** A click on the button of line 439, which is disabled while the scene's
    [isGeneratingImages] is set: [handleRegenerateImages(scene)]. *)
Definition clickRegenerate (ai : bool) (index : nat) (a : app) : app :=
  match nth_error (scenes a) index with
  | None => a
  | Some scene =>
      if isGeneratingImages scene then a
      else
        triggerImageGeneration ai (id scene)
          (mkApp (handleRegenerateImages scene (scenes a)) (imageGenQueue a) (targets a))
  end.

(** The [k]-th running job comes to its end with [result]: its last
    [setScenes], then its promise fulfils and the [finally] callback of the
    queue runs. *)
Definition finishJob (k : nat) (result : option (list string)) (a : app) : app :=
  match nth_error (RequestQueue.pending (imageGenQueue a)) k with
  | None => a
  | Some task =>
      let queue' := RequestQueue.settle k true (imageGenQueue a) in
      mkApp (startJobs (targets a) (newlyStarted (imageGenQueue a) queue')
               (jobDone (sceneOf (targets a) task) result (scenes a)))
            queue' (targets a)
  end.

(** The scenes of lines 610-617.  Each parsed scene comes with the reading
    of [Date.now()] taken when [map] reaches it; its id is that reading plus
    its index [i]. *)
Fixpoint newScenesFrom (i : Z) (parsed : list (Z * (string * string)))
  : list StoryboardScene :=
  match parsed with
  | [] => []
  | (now, (text, description)) :: later =>
      newScene (now + i) text description :: newScenesFrom (i + 1) later
  end.

(** Lines 619-621 of [handleAnalyze]: [setScenes(newScenes)], then one
    [triggerImageGeneration] for each new scene. *)
Definition analyzed (ai : bool) (parsed : list (Z * (string * string))) (a : app) : app :=
  fold_left (fun a' scene => triggerImageGeneration ai (id scene) a')
            (newScenesFrom 0 parsed)
            (mkApp (newScenesFrom 0 parsed) (imageGenQueue a) (targets a)).

(** The readings of the clock never go back. *)
Fixpoint clockAdvances (parsed : list (Z * (string * string))) : Prop :=
  match parsed with
  | [] => True
  | (now, _) :: later =>
      match later with
      | [] => True
      | (next, _) :: _ => (now <= next)%Z
      end /\ clockAdvances later
  end.

Inductive event : Type :=
| Analyzed (parsed : list (Z * (string * string)))
| ClickRegenerate (index : nat)
| JobFinishes (k : nat) (result : option (list string))
| SelectImage (sid imgIdx : Z)
| Cleared.

Definition step (ai : bool) (a : app) (e : event) : app :=
  match e with
  | Analyzed parsed => analyzed ai parsed a
  | ClickRegenerate index => clickRegenerate ai index a
  | JobFinishes k result => finishJob k result a
  | SelectImage sid imgIdx =>
      mkApp (onSelectImage sid imgIdx (scenes a)) (imageGenQueue a) (targets a)
  | Cleared => mkApp [] (imageGenQueue a) (targets a)
  end.

Definition run (ai : bool) (a : app) (es : list event) : app := fold_left (step ai) es a.

(** The application when the page is opened with no project. *)
Definition opened : app := mkApp [] RequestQueue.init [].


(** Every task of the queue was made by [triggerImageGeneration]. *)
Definition tasksKnown (a : app) : Prop :=
  forall task,
    In task (RequestQueue.queue (imageGenQueue a)
             ++ RequestQueue.pending (imageGenQueue a)
             ++ RequestQueue.started (imageGenQueue a)) ->
    RequestQueue.invoke task = RequestQueue.ReturnsPromise /\
    (RequestQueue.task_id task < List.length (targets a))%nat.



(** Five parsed scenes, with the readings of the clock. *)
Definition fiveScenes : list (Z * (string * string)) :=
  [(1000, ("one", "a")); (1000, ("two", "b")); (1000, ("three", "c"));
   (1001, ("four", "d")); (1001, ("five", "e"))]%string%Z.

End Generation.

(** ** The text handed to the JSON parser (src/index.tsx 161-176) *)

Module Json.
Local Open Scope Z_scope.

(** A JavaScript string is a sequence of UTF-16 code units. *)
Definition jsString := list Z.

Definition backtick : Z := 96.
Definition openBrace : Z := 123.
Definition closeBrace : Z := 125.

(** The two patterns of the regular expressions, both without any
    metacharacter: three backticks, and three backticks before [json]. *)
Definition fence : jsString := [backtick; backtick; backtick].
Definition fenceJson : jsString := fence ++ [106; 115; 111; 110].

Fixpoint startsWith (pattern text : jsString) : bool :=
  match pattern, text with
  | [], _ => true
  | _ :: _, [] => false
  | p :: pattern', c :: text' => (p =? c) && startsWith pattern' text'
  end.

(** [text.replace(/pattern/g, '')] for a literal, non-empty pattern: the
    text is scanned from the left, a match is dropped and the scan goes on
    behind it.  [skip] counts the code units of a match still to drop. *)
Fixpoint removeAll (pattern : jsString) (skip : nat) (text : jsString) : jsString :=
  match text with
  | [] => []
  | c :: text' =>
      match skip with
      | S skip' => removeAll pattern skip' text'
      | O =>
          if startsWith pattern text
          then removeAll pattern (List.length pattern - 1) text'
          else c :: removeAll pattern 0 text'
      end
  end.

Definition replaceAll (pattern text : jsString) : jsString :=
  removeAll pattern 0 text.

(** [text.indexOf(c)] and [text.lastIndexOf(c)], [-1] when [c] is absent. *)
Fixpoint indexOf (c : Z) (text : jsString) : Z :=
  match text with
  | [] => -1
  | x :: text' =>
      if x =? c then 0
      else let r := indexOf c text' in if r =? -1 then -1 else r + 1
  end.

Fixpoint lastIndexOf (c : Z) (text : jsString) : Z :=
  match text with
  | [] => -1
  | x :: text' =>
      let r := lastIndexOf c text' in
      if r =? -1 then (if x =? c then 0 else -1) else r + 1
  end.

(** [text.substring(a, b)]: both indices are clamped to the text, and
    swapped when the first is the larger. *)
Definition substring (a b : Z) (text : jsString) : jsString :=
  let len := Z.of_nat (List.length text) in
  let a' := Z.min (Z.max a 0) len in
  let b' := Z.min (Z.max b 0) len in
  firstn (Z.to_nat (Z.max a' b' - Z.min a' b'))
         (skipn (Z.to_nat (Z.min a' b')) text).

(** The value of [cleaned] when [JSON.parse] is called. *)
Definition cleaned (text : jsString) : jsString :=
  let cleaned := replaceAll fence (replaceAll fenceJson text) in
  let firstBrace := indexOf openBrace cleaned in
  let lastBrace := lastIndexOf closeBrace cleaned in
  if negb (firstBrace =? -1) && negb (lastBrace =? -1)
  then substring firstBrace (lastBrace + 1) cleaned
  else cleaned.

Section CleanJson.
Variable json : Type.
Variable emptyObject : json.
(** [JSON.parse], [None] when it throws. *)
Variable JSON_parse : jsString -> option json.

(** [None] stands for the error that [cleanJson] throws in place of the
    parser's. *)
Definition cleanJson (text : jsString) : option json :=
  match text with
  | [] => Some emptyObject
  | _ => JSON_parse (cleaned text)
  end.
End CleanJson.

(** A pattern occurs somewhere in a text. *)
Fixpoint occursIn (pattern text : jsString) : bool :=
  startsWith pattern text ||
  match text with
  | [] => false
  | _ :: text' => occursIn pattern text'
  end.

(** [```json{"a":1}```], and [}7{]. *)
Definition fencedObject : jsString :=
  fenceJson ++ [123; 34; 97; 34; 58; 49; 125] ++ fence.
Definition bracesTheWrongWay : jsString := [125; 55; 123].

End Json.

(* ================================================================== *)
(** * Part II: what the code guarantees *)
(* ================================================================== *)

(** ** The task queue *)

Module QueueFacts.
Import RequestQueue.

Ltac fields := cbn [queue activeCount pending started unhandled fst snd] in *.

(** [process] either returns at its guard or admits the head of the queue. *)
Lemma process_cases (q : t) :
  (process q = (q, Normal) /\ (maxConcurrent <= activeCount q \/ queue q = [])%Z)
  \/ (exists task rest,
        queue q = task :: rest /\ (activeCount q < maxConcurrent)%Z /\
        process q =
          (mk rest (activeCount q + 1) (pending q ++ promiseOf task)
              (started q ++ [task]) (unhandled q),
           outcomeOf task)).
Proof.
  unfold process.
  destruct (Z.leb_spec maxConcurrent (activeCount q)) as [Hfull | Hfree]; cbn [orb].
  - left; split; [reflexivity | left; exact Hfull].
  - destruct (queue q) as [| task rest] eqn:Hq; cbn [List.length Nat.eqb].
    + left; split; [reflexivity | right; reflexivity].
    + right; exists task, rest; repeat split; try assumption.
      unfold promiseOf, outcomeOf.
      destruct (invoke task); cbn; [reflexivity | now rewrite app_nil_r].
Qed.

Lemma leaked_app (l1 l2 : list task) : leaked (l1 ++ l2) = leaked l1 ++ leaked l2.
Proof. unfold leaked; apply filter_app. Qed.

Lemma slots_of_admitted (task : task) :
  (List.length (promiseOf task) + List.length (leaked [task]) = 1)%nat.
Proof. unfold promiseOf, leaked; cbn; destruct (invoke task); reflexivity. Qed.

Lemma length_removeAt {A : Type} (k : nat) (l : list A) :
  (k < List.length l)%nat -> S (List.length (removeAt k l)) = List.length l.
Proof.
  revert k; induction l as [| x l IH]; intros k Hk; cbn in *; [lia |].
  destruct k as [| k]; cbn; [reflexivity |].
  rewrite IH by lia; reflexivity.
Qed.

Lemma invariant_init : invariant [] init.
Proof. split; cbn; try reflexivity; unfold maxConcurrent; try lia; congruence. Qed.

Lemma invariant_add (all : list task) (q : t) (task : task) :
  invariant all q -> invariant (all ++ [task]) (fst (add task q)).
Proof.
  intros [Hslots Hbound Hfifo Hbusy]. unfold add.
  destruct (process_cases (push task q)) as [[Heq Hwhy] | (head & rest & Hq & Hfree & Heq)];
    rewrite Heq; unfold push in *; fields.
  - destruct Hwhy as [Hfull | Hempty].
    + split; fields; try assumption.
      * rewrite app_assoc, Hfifo; reflexivity.
      * intros _; lia.
    + unfold push in Hempty; fields; now destruct (queue q).
  - fields.
    assert (Hnil : queue q = []).
    { destruct (queue q) as [| x l] eqn:E; [reflexivity |].
      assert (activeCount q = maxConcurrent) by (apply Hbusy; congruence). lia. }
    unfold push in Hq; fields; rewrite Hnil in Hq; cbn [app] in Hq; injection Hq as <- <-.
    split; fields.
    + rewrite leaked_app, !length_app, Hslots.
      pose proof (slots_of_admitted task). lia.
    + lia.
    + rewrite <- Hfifo, Hnil, !app_nil_r; reflexivity.
    + congruence.
Qed.

Lemma invariant_settle (all : list task) (q : t) (k : nat) (ok : bool) :
  invariant all q -> invariant all (settle k ok q).
Proof.
  intros [Hslots Hbound Hfifo Hbusy]. unfold settle.
  destruct (nth_error (pending q) k) as [done |] eqn:Hk; [| now split].
  assert (Hlt : (k < List.length (pending q))%nat)
    by (apply nth_error_Some; congruence).
  pose proof (length_removeAt k (pending q) Hlt) as Hlen.
  unfold onFinally.
  match goal with |- context [process ?q0] =>
    destruct (process_cases q0) as [[Heq Hwhy] | (head & rest & Hq & Hfree & Heq)];
      rewrite Heq
  end; fields.
  - destruct Hwhy as [Hfull | Hempty]; [lia |].
    assert (Hgoal : forall u, invariant all
              (mk (queue q) (activeCount q - 1) (removeAt k (pending q)) (started q) u)).
    { intros u; split; fields; [lia | lia | assumption | congruence]. }
    destruct ok; apply Hgoal.
  - assert (Hfull : activeCount q = maxConcurrent) by (apply Hbusy; congruence).
    assert (Hgoal : forall u, invariant all
              (mk rest (activeCount q - 1 + 1)
                  (removeAt k (pending q) ++ promiseOf head) (started q ++ [head]) u)).
    { intros u; split; fields.
      - rewrite leaked_app, !length_app.
        pose proof (slots_of_admitted head). lia.
      - lia.
      - rewrite <- Hfifo, Hq, <- app_assoc; reflexivity.
      - intros _; lia. }
    destruct ok, (outcomeOf head); apply Hgoal.
Qed.

Lemma run_app (q : t) (es1 es2 : list event) : run q (es1 ++ es2) = run (run q es1) es2.
Proof. unfold run; apply fold_left_app. Qed.

Lemma added_app (es1 es2 : list event) : added (es1 ++ es2) = added es1 ++ added es2.
Proof.
  induction es1 as [| [task | k ok] es1 IH]; cbn; [reflexivity | now rewrite IH | exact IH].
Qed.

Lemma invariant_step (all : list task) (q : t) (e : event) :
  invariant all q -> invariant (all ++ added [e]) (step q e).
Proof.
  destruct e as [task | k ok]; cbn [step added].
  - apply invariant_add.
  - rewrite app_nil_r; apply invariant_settle.
Qed.

Lemma invariant_run_from (all : list task) (q : t) (es : list event) :
  invariant all q -> invariant (all ++ added es) (run q es).
Proof.
  revert all q; induction es as [| e es IH]; intros all q Hinv; cbn [run fold_left].
  - cbn; now rewrite app_nil_r.
  - change (e :: es) with ([e] ++ es); rewrite added_app, app_assoc.
    apply IH, invariant_step, Hinv.
Qed.

Lemma invariant_run (es : list event) : invariant (added es) (run init es).
Proof. exact (invariant_run_from [] init es invariant_init). Qed.


Lemma leaked_wellBehaved (l : list task) : Forall wellBehaved l -> leaked l = [].
Proof.
  induction 1 as [| task l Hwb _ IH]; [reflexivity |].
  unfold leaked in *; cbn [filter]; rewrite Hwb; exact IH.
Qed.

(** One settlement of a pending promise admits the head of the queue, and
    nothing else. *)
Lemma settle_admits_head (all : list task) (q : t) (k : nat) (ok : bool) :
  invariant all q -> (k < List.length (pending q))%nat ->
  queue (settle k ok q) = skipn 1 (queue q) /\
  started (settle k ok q) = started q ++ firstn 1 (queue q).
Proof.
  intros [Hslots Hbound Hfifo Hbusy] Hk. unfold settle.
  destruct (nth_error (pending q) k) eqn:E;
    [| apply nth_error_None in E; lia].
  unfold onFinally.
  match goal with |- context [process ?q0] =>
    destruct (process_cases q0) as [[Heq Hwhy] | (head & rest & Hq & Hfree & Heq)];
      rewrite Heq
  end; fields.
  - destruct Hwhy as [Hfull | Hempty]; [lia |].
    rewrite Hempty; destruct ok; fields; now rewrite app_nil_r.
  - rewrite Hq; destruct ok, (outcomeOf head); fields; split; reflexivity.
Qed.

Lemma run_settles (all : list task) (q : t) (ss : list (nat * bool)) :
  invariant all q -> settlesFrom q ss ->
  queue (run q (settleEvents ss)) = skipn (List.length ss) (queue q) /\
  started (run q (settleEvents ss)) = started q ++ firstn (List.length ss) (queue q).
Proof.
  revert q; induction ss as [| [k ok] ss IH]; intros q Hinv Hss.
  - cbn; now rewrite app_nil_r.
  - destruct Hss as [Hk Hss].
    destruct (settle_admits_head all q k ok Hinv Hk) as [Hq Hs].
    destruct (IH (settle k ok q) (invariant_settle all q k ok Hinv) Hss) as [IHq IHs].
    cbn [settleEvents map run fold_left step fst snd List.length].
    change (fold_left step (map (fun s => Settle (fst s) (snd s)) ss) (settle k ok q))
      with (run (settle k ok q) (settleEvents ss)).
    rewrite IHq, IHs, Hq, Hs.
    destruct (queue q) as [| head rest]; cbn [skipn firstn].
    + rewrite skipn_nil, firstn_nil, !app_nil_r; split; reflexivity.
    + rewrite <- app_assoc; split; reflexivity.
Qed.

(** The schedule that settles the oldest pending promise [n] times can run
    as long as the queue is not longer than [n] and calls return promises. *)
Lemma oldest_first_possible (all : list task) (n : nat) (q : t) :
  invariant all q -> Forall wellBehaved all -> (n <= List.length (queue q))%nat ->
  settlesFrom q (repeat (0%nat, true) n).
Proof.
  revert q; induction n as [| n IH]; intros q Hinv Hwb Hn; cbn [repeat settlesFrom];
    [exact I |].
  assert (Hk : (0 < List.length (pending q))%nat).
  { destruct Hinv as [Hslots _ Hfifo Hbusy].
    rewrite leaked_wellBehaved in Hslots
      by (rewrite <- Hfifo in Hwb; apply Forall_app in Hwb; tauto).
    assert (activeCount q = maxConcurrent)
      by (apply Hbusy; destruct (queue q); cbn in Hn; [lia | congruence]).
    unfold maxConcurrent in *; cbn [List.length] in Hslots; lia. }
  split; [exact Hk |].
  apply IH; [apply invariant_settle, Hinv | exact Hwb |].
  destruct (settle_admits_head all q 0 true Hinv Hk) as [Hq _].
  rewrite Hq; destruct (queue q); cbn in *; lia.
Qed.

Example four_jobs_three_slots :
  run init [Add jobA; Add jobB; Add jobC; Add jobD]
  = mk [jobD] 3 [jobA; jobB; jobC] [jobA; jobB; jobC] 0.
Proof. reflexivity. Qed.

Example rejection_frees_the_slot :
  run init [Add jobA; Add jobB; Add jobC; Add jobD; Settle 1 false]
  = mk [] 3 [jobA; jobC; jobD] [jobA; jobB; jobC; jobD] 1.
Proof. reflexivity. Qed.

Example throwing_call_escapes_add :
  add boom1 init = (mk [] 1 [] [boom1] 0, Throws).
Proof. reflexivity. Qed.


(** X1: on every run of the queue, whatever the tasks do, at most three
    promises are pending, [activeCount] never passes [maxConcurrent], and
    the tasks started followed by the tasks waiting are the tasks added, in
    the order of the calls of [add]: admission is first in, first out, and
    no task is started twice. *)
Theorem queue_bounded_and_fifo (es : list event) :
  (List.length (pending (run init es)) <= 3)%nat /\
  (activeCount (run init es) <= maxConcurrent)%Z /\
  started (run init es) ++ queue (run init es) = added es.
Proof.
  destruct (invariant_run es) as [Hslots Hbound Hfifo _].
  unfold maxConcurrent in *; repeat split; try assumption; lia.
Qed.

(** X2: when every call [task()] returns a promise, a task waits only
    while three promises are pending, so a settlement can always come. *)
Theorem waiting_means_three_pending (es : list event) :
  Forall wellBehaved (added es) ->
  queue (run init es) <> [] ->
  List.length (pending (run init es)) = 3%nat.
Proof.
  intros Hwb Hq. destruct (invariant_run es) as [Hslots _ Hfifo Hbusy].
  rewrite leaked_wellBehaved in Hslots
    by (rewrite <- Hfifo in Hwb; apply Forall_app in Hwb; tauto).
  specialize (Hbusy Hq). unfold maxConcurrent in *. cbn [List.length] in Hslots. lia.
Qed.

Lemma waiting_means_three_pending_witness :
  Forall wellBehaved (added [Add jobA; Add jobB; Add jobC; Add jobD]) /\
  queue (run init [Add jobA; Add jobB; Add jobC; Add jobD]) <> [] /\
  List.length (pending (run init [Add jobA; Add jobB; Add jobC; Add jobD])) = 3%nat.
Proof.
  assert (Hwb : Forall wellBehaved (added [Add jobA; Add jobB; Add jobC; Add jobD]))
    by (repeat constructor).
  assert (Hq : queue (run init [Add jobA; Add jobB; Add jobC; Add jobD]) <> [])
    by (cbn; discriminate).
  exact (conj Hwb (conj Hq (waiting_means_three_pending _ Hwb Hq))).
Defined.

(** X3: after any run, a schedule that settles pending promises at least
    as many times as tasks wait leaves nobody waiting: every task added has
    been started, in the order added. *)
Theorem settlements_start_every_job (es : list event) (ss : list (nat * bool)) :
  settlesFrom (run init es) ss ->
  (List.length (queue (run init es)) <= List.length ss)%nat ->
  queue (run init (es ++ settleEvents ss)) = [] /\
  started (run init (es ++ settleEvents ss)) = added es.
Proof.
  intros Hss Hlen.
  pose proof (invariant_run es) as Hinv.
  destruct (run_settles (added es) (run init es) ss Hinv Hss) as [Hq Hs].
  rewrite run_app, Hq, Hs.
  rewrite skipn_all2, firstn_all2 by exact Hlen.
  split; [reflexivity | apply (inv_fifo _ _ Hinv)].
Qed.

Lemma settlements_start_every_job_witness :
  queue (run init ([Add jobA; Add jobB; Add jobC; Add jobD]
                   ++ settleEvents [(2%nat, false)])) = [] /\
  started (run init ([Add jobA; Add jobB; Add jobC; Add jobD]
                     ++ settleEvents [(2%nat, false)]))
  = added [Add jobA; Add jobB; Add jobC; Add jobD].
Proof.
  apply (settlements_start_every_job
           [Add jobA; Add jobB; Add jobC; Add jobD] [(2%nat, false)]).
  - cbn; lia.
  - cbn; lia.
Defined.

(** X4: such a schedule exists: settling the oldest pending promise once
    for each waiting task is possible when calls return promises. *)
Theorem a_draining_schedule_exists (es : list event) :
  Forall wellBehaved (added es) ->
  settlesFrom (run init es)
    (repeat (0%nat, true) (List.length (queue (run init es)))).
Proof.
  intros Hwb.
  apply (oldest_first_possible (added es)); [apply invariant_run | exact Hwb | lia].
Qed.

Lemma a_draining_schedule_exists_witness :
  settlesFrom (run init [Add jobA; Add jobB; Add jobC; Add jobD])
    (repeat (0%nat, true)
       (List.length (queue (run init [Add jobA; Add jobB; Add jobC; Add jobD])))).
Proof.
  apply (a_draining_schedule_exists [Add jobA; Add jobB; Add jobC; Add jobD]).
  repeat constructor.
Defined.

(** X5: a promise that rejects leaves the queue as a promise that
    fulfils does: the slot is freed and the same task is admitted.  Only the
    count of unhandled rejections differs. *)
Theorem rejection_settles_like_fulfilment (q : t) (k : nat) :
  queue (settle k false q) = queue (settle k true q) /\
  activeCount (settle k false q) = activeCount (settle k true q) /\
  pending (settle k false q) = pending (settle k true q) /\
  started (settle k false q) = started (settle k true q).
Proof.
  unfold settle. destruct (nth_error (pending q) k); [| now repeat split].
  destruct (onFinally _) as [q1 [|]]; now repeat split.
Qed.



Example throwing_calls_from_add_starve_too :
  starved [boom1; boom2; boom3] jobD
    (run init [Add boom1; Add boom2; Add boom3; Add jobD]).
Proof. repeat split. Qed.



End QueueFacts.

(** ** The scene list *)

Module SceneFacts.
Import Storyboard.

Lemma selectedIndexInRangeb_spec (s : StoryboardScene) :
  selectedIndexInRangeb s = true <-> selectedIndexInRange s.
Proof.
  unfold selectedIndexInRangeb, selectedIndexInRange.
  rewrite andb_true_iff, Z.leb_le, Z.ltb_lt. tauto.
Qed.

(** An updater that keeps the invariant on the scene it rewrites keeps it on the list. *)
Lemma updateScene_keeps (P : StoryboardScene -> Prop) (sceneId : Z)
  (f : StoryboardScene -> StoryboardScene) (prev : list StoryboardScene) :
  (forall s, In s prev -> id s = sceneId -> P s -> P (f s)) ->
  Forall P prev -> Forall P (updateScene sceneId f prev).
Proof.
  intros Hf Hall. unfold updateScene. apply Forall_forall. intros s' Hin.
  apply in_map_iff in Hin. destruct Hin as (s & <- & Hs).
  rewrite Forall_forall in Hall.
  destruct (Z.eqb_spec (id s) sceneId) as [Heq | _]; [apply Hf | apply Hall]; auto.
Qed.

(** X6: a completed generation batch leaves every scene's selected index
    in range, whatever images the batch returned: the scene it rewrites gets
    index 0. *)
Theorem generationCompleted_keeps_range (sceneId : Z) (newImages : list string)
  (prev : list StoryboardScene) :
  Forall selectedIndexInRange prev ->
  Forall selectedIndexInRange (generationCompleted sceneId newImages prev).
Proof.
  apply updateScene_keeps. intros s _ _ _.
  unfold selectedIndexInRange; cbn. lia.
Qed.

(** X7: selecting one of the images a scene card offers keeps every
    scene's selected index in range. *)
Theorem onSelectImage_keeps_range (sid imgIdx : Z) (prev : list StoryboardScene) :
  (forall s, In s prev -> id s = sid -> offeredIndex s imgIdx) ->
  Forall selectedIndexInRange prev ->
  Forall selectedIndexInRange (onSelectImage sid imgIdx prev).
Proof.
  intros Hoffer. apply updateScene_keeps. intros s Hin Hid _.
  specialize (Hoffer s Hin Hid).
  unfold selectedIndexInRange, offeredIndex in *; cbn. lia.
Qed.

(** X8: the two updates that only flip [isGeneratingImages] keep the
    selected index in range. *)
Theorem generating_flag_keeps_range (sceneId : Z) (prev : list StoryboardScene) :
  Forall selectedIndexInRange prev ->
  Forall selectedIndexInRange (generationStarted sceneId prev) /\
  Forall selectedIndexInRange (generationFailed sceneId prev).
Proof.
  intros Hall; split; (apply updateScene_keeps; [| exact Hall]); intros s _ _ Hs; exact Hs.
Qed.

Lemma generationCompleted_keeps_range_witness :
  Forall selectedIndexInRange (generationCompleted 7 ["new0"%string] [thirdPicked]).
Proof.
  apply (generationCompleted_keeps_range 7 ["new0"%string] [thirdPicked]).
  repeat constructor; cbn; lia.
Defined.

Lemma onSelectImage_keeps_range_witness :
  Forall selectedIndexInRange (onSelectImage 7 3 [thirdPicked]).
Proof.
  apply (onSelectImage_keeps_range 7 3 [thirdPicked]).
  - intros s [<- | []] _. unfold offeredIndex; cbn; lia.
  - repeat constructor; cbn; lia.
Defined.

Lemma generating_flag_keeps_range_witness :
  Forall selectedIndexInRange (generationStarted 7 [thirdPicked]) /\
  Forall selectedIndexInRange (generationFailed 7 [thirdPicked]).
Proof.
  apply (generating_flag_keeps_range 7 [thirdPicked]).
  repeat constructor; cbn; lia.
Defined.

(** C5, at the failing input: regenerating the images of a scene whose third
    image is selected empties [images] and keeps [selectedImageIndex = 2],
    which is not below [max(1, 0) = 1]; when the queued generation then
    fails, the scene stays in that state. *)
Theorem regenerate_keeps_stale_index :
  selectedIndexInRange thirdPicked /\
  handleRegenerateImages thirdPicked [thirdPicked]
    = [mkScene 7 "A fox crosses the road." "fox, road, dusk" [] 2 false None None] /\
  ~ Forall selectedIndexInRange (handleRegenerateImages thirdPicked [thirdPicked]) /\
  ~ Forall selectedIndexInRange
      (generationFailed 7
         (generationStarted 7 (handleRegenerateImages thirdPicked [thirdPicked]))).
Proof.
  split; [unfold selectedIndexInRange; cbn; lia |].
  split; [reflexivity |].
  split; intros H; inversion H as [| s l Hs _]; subst;
    unfold selectedIndexInRange in Hs; cbn in Hs; lia.
Qed.

End SceneFacts.

(** ** Timing of a scene *)

Module TimingFacts.
Import Storyboard Audio Recorder Exporter.






#[global] Instance clampRate_compat : Proper (Qeq ==> Qeq) clampRate.
Proof. intros x y Hxy. unfold clampRate. now rewrite Hxy. Qed.





Lemma textLength_of (scene : StoryboardScene) (n : nat) :
  String.length (originalText scene) = n -> textLength scene = inject_Z (Z.of_nat n).
Proof. intros H; unfold textLength; now rewrite H. Qed.






(** What the acquisition phase leaves on a scene that had no buffer. *)
Lemma acquireAudio_cases (rt : Runtime) (settings : AppSettings) (scene : StoryboardScene) :
  audioData scene = None ->
  (noSynthesis rt settings /\
   acquireAudio rt settings scene = withAudioDuration (fallbackDuration scene) scene)
  \/ (ttsProvider settings = gemini /\ aiReady rt = true /\
      synthesisFails rt settings scene /\ acquireAudio rt settings scene = scene)
  \/ (ttsProvider settings = gemini /\ aiReady rt = true /\
      exists rawBytes duration,
        synthesize rt (ttsText scene) (ttsVoice settings) = TtsData rawBytes /\
        decodeAudioData rt rawBytes = Some duration /\
        acquireAudio rt settings scene = withAudio rawBytes duration scene).
Proof.
  intros Hd. unfold acquireAudio, audioCallback, noSynthesis, synthesisFails. rewrite Hd.
  destruct (ttsProvider settings), (aiReady rt);
    try (left; split; [auto | reflexivity]).
  right.
  destruct (synthesize rt (ttsText scene) (ttsVoice settings)) as [| | rawBytes];
    try (left; repeat split; reflexivity).
  destruct (decodeAudioData rt rawBytes) as [duration |] eqn:Hdec.
  - right; repeat split. exists rawBytes, duration. repeat split; assumption.
  - left; repeat split; assumption.
Qed.





Example eight_chars_one_second_at_double_rate :
  effectiveDuration rejectingRuntime (browserAt 2)
    (acquireAudio rejectingRuntime (browserAt 2) eightChars) = Some (2000 # 2).
Proof. reflexivity. Qed.

Example spoken_scene_follows_its_buffer :
  sameNumber
    (effectiveSeconds speakingRuntime (geminiAt 1)
       (acquireAudio speakingRuntime (geminiAt 1) twelveChars))
    (Some (3 # 2)).
Proof. reflexivity. Qed.








End TimingFacts.

(** ** Audio acquisition *)

Module AudioFacts.
Import Storyboard Audio Recorder TimingFacts.

Lemma acquireAudio_keeps_pairing (rt : Runtime) (settings : AppSettings)
  (scene : StoryboardScene) :
  bufferHasDuration scene -> bufferHasDuration (acquireAudio rt settings scene).
Proof.
  intros Hinv. destruct (audioData scene) as [data |] eqn:Hd.
  - unfold acquireAudio, audioCallback; now rewrite Hd.
  - destruct (acquireAudio_cases rt settings scene Hd)
      as [[_ Heq] | [(_ & _ & _ & Heq) | (_ & _ & raw & d & _ & _ & Heq)]];
      rewrite Heq; unfold bufferHasDuration in *; cbn; try discriminate.
    exact Hinv.
Qed.

Lemma Forall_writeAt {A : Type} (P : A -> Prop) (i : nat) (v : A) (l : list A) :
  P v -> Forall P l -> Forall P (writeAt i v l).
Proof.
  intros Hv Hl; revert i; induction Hl as [| x l Hx Hl IH]; intros [| i]; cbn;
    constructor; auto.
Qed.

Lemma finishCallbacks_keeps_pairing (rt : Runtime) (settings : AppSettings)
  (scenes : list StoryboardScene) (order : list nat)
  (updatedScenes : list StoryboardScene) :
  Forall bufferHasDuration scenes -> Forall bufferHasDuration updatedScenes ->
  Forall bufferHasDuration (finishCallbacks rt settings scenes order updatedScenes).
Proof.
  intros Hscenes. revert updatedScenes.
  induction order as [| index later IH]; intros updatedScenes Hupd;
    cbn [finishCallbacks]; [exact Hupd |].
  apply IH.
  destruct (nth_error scenes index) as [scene |] eqn:Hscene; [| exact Hupd].
  destruct (audioCallback rt settings scene) as [updated |] eqn:Hcb; [| exact Hupd].
  apply Forall_writeAt; [| exact Hupd].
  assert (Hs : bufferHasDuration scene).
  { rewrite Forall_forall in Hscenes. eapply Hscenes, nth_error_In, Hscene. }
  pose proof (acquireAudio_keeps_pairing rt settings scene Hs) as Hacq.
  unfold acquireAudio in Hacq. now rewrite Hcb in Hacq.
Qed.

(** C6, as amended: the acquisition phase never leaves a buffer without a
    duration, however many of its callbacks have finished, in whatever
    order.  When it stores a buffer it stores, in the same update, the
    duration the bytes decode to; when no speech synthesis is configured it
    stores a duration alone and no buffer. *)
Theorem buffer_comes_with_its_duration (rt : Runtime) (settings : AppSettings)
  (scenes : list StoryboardScene) (order : list nat) (scene : StoryboardScene) :
  (Forall bufferHasDuration scenes ->
     Forall bufferHasDuration (finishCallbacks rt settings scenes order scenes)) /\
  (bufferHasDuration scene -> bufferHasDuration (acquireAudio rt settings scene)) /\
  (audioData scene = None ->
   forall data, audioData (acquireAudio rt settings scene) = Some data ->
     exists duration,
       decodeAudioData rt data = Some duration /\
       audioDuration (acquireAudio rt settings scene) = Some duration) /\
  (audioData scene = None -> noSynthesis rt settings ->
     audioData (acquireAudio rt settings scene) = None /\
     audioDuration (acquireAudio rt settings scene) = Some (fallbackDuration scene)).
Proof.
  split; [| split; [| split]].
  - intros Hall. now apply finishCallbacks_keeps_pairing.
  - apply acquireAudio_keeps_pairing.
  - intros Hd data Hafter.
    destruct (acquireAudio_cases rt settings scene Hd)
      as [[_ Heq] | [(_ & _ & _ & Heq) | (_ & _ & raw & d & _ & Hdec & Heq)]];
      rewrite Heq in *; cbn in Hafter; try congruence.
    injection Hafter as <-. exists d; split; [exact Hdec | reflexivity].
  - intros Hd Hno.
    destruct (acquireAudio_cases rt settings scene Hd)
      as [[_ Heq] | [(Hg & Ha & _) | (Hg & Ha & _)]];
      try (destruct Hno as [Hb | Hb]; congruence).
    rewrite Heq; cbn; split; [exact Hd | reflexivity].
Qed.

Lemma buffer_comes_with_its_duration_witness :
  audioData (acquireAudio speakingRuntime (geminiAt 1) twelveChars)
    = Some [Byte.x52; Byte.x49; Byte.x46] /\
  exists duration,
    decodeAudioData speakingRuntime [Byte.x52; Byte.x49; Byte.x46] = Some duration /\
    audioDuration (acquireAudio speakingRuntime (geminiAt 1) twelveChars) = Some duration.
Proof.
  split; [reflexivity |].
  exact (proj1 (proj2 (proj2 (buffer_comes_with_its_duration speakingRuntime (geminiAt 1)
                                 [twelveChars] [0%nat] twelveChars)))
           eq_refl [Byte.x52; Byte.x49; Byte.x46] eq_refl).
Defined.

(** C6 as stated fails: with the browser provider the phase stores a
    duration on a new scene and no buffer. *)
Lemma fallback_sets_duration_alone :
  bothOrNeither eightChars /\
  audioData (acquireAudio rejectingRuntime (browserAt 1) eightChars) = None /\
  audioDuration (acquireAudio rejectingRuntime (browserAt 1) eightChars) <> None /\
  ~ bothOrNeither (acquireAudio rejectingRuntime (browserAt 1) eightChars).
Proof.
  split; [split; reflexivity |]. split; [reflexivity |]. split; [discriminate |].
  intros [H _]. specialize (H eq_refl). discriminate H.
Qed.

Lemma nth_error_writeAt_same {A : Type} (i : nat) (v : A) (l : list A) :
  (i < List.length l)%nat -> nth_error (writeAt i v l) i = Some v.
Proof.
  revert i; induction l as [| x l IH]; intros [| i] Hi; cbn in *; try lia.
  - reflexivity.
  - apply IH; lia.
Qed.

Lemma nth_error_writeAt_other {A : Type} (i j : nat) (v : A) (l : list A) :
  i <> j -> nth_error (writeAt i v l) j = nth_error l j.
Proof.
  revert i j; induction l as [| x l IH]; intros [| i] [| j] Hij; cbn;
    try reflexivity; try congruence.
  apply IH; congruence.
Qed.

(** What the array holds while the callbacks of the indices [finished] are
    done and the others are not. *)
Definition partlyAcquired (rt : Runtime) (settings : AppSettings)
  (scenes : list StoryboardScene) (finished : list nat)
  (updatedScenes : list StoryboardScene) : Prop :=
  forall j,
    (In j finished ->
       nth_error updatedScenes j = option_map (acquireAudio rt settings) (nth_error scenes j)) /\
    (~ In j finished -> nth_error updatedScenes j = nth_error scenes j).

Lemma partlyAcquired_step (rt : Runtime) (settings : AppSettings)
  (scenes : list StoryboardScene) (finished : list nat) (index : nat)
  (updatedScenes : list StoryboardScene) :
  partlyAcquired rt settings scenes finished updatedScenes ->
  partlyAcquired rt settings scenes (index :: finished)
    match nth_error scenes index with
    | Some scene =>
        match audioCallback rt settings scene with
        | Some updated => writeAt index updated updatedScenes
        | None => updatedScenes
        end
    | None => updatedScenes
    end.
Proof.
  intros Hpart j.
  destruct (Nat.eq_dec index j) as [<- | Hne].
  - split; [intros _ | intros Hnot; contradiction Hnot; now left].
    destruct (Hpart index) as [Hin Hout].
    assert (Hcur : nth_error updatedScenes index
                   = option_map (acquireAudio rt settings) (nth_error scenes index)
                   \/ nth_error updatedScenes index = nth_error scenes index).
    { destruct (in_dec Nat.eq_dec index finished); [left | right]; auto. }
    destruct (nth_error scenes index) as [scene |] eqn:Hscene; cbn [option_map] in *.
    + unfold acquireAudio in *.
      destruct (audioCallback rt settings scene) as [updated |] eqn:Hcb.
      * apply nth_error_writeAt_same. apply nth_error_Some.
        destruct Hcur as [-> | ->]; discriminate.
      * destruct Hcur as [-> | ->]; reflexivity.
    + destruct Hcur as [-> | ->]; reflexivity.
  - assert (Hsame : nth_error
                      match nth_error scenes index with
                      | Some scene =>
                          match audioCallback rt settings scene with
                          | Some updated => writeAt index updated updatedScenes
                          | None => updatedScenes
                          end
                      | None => updatedScenes
                      end j = nth_error updatedScenes j).
    { destruct (nth_error scenes index) as [scene |]; [| reflexivity].
      destruct (audioCallback rt settings scene); [| reflexivity].
      now apply nth_error_writeAt_other. }
    rewrite Hsame. destruct (Hpart j) as [Hin Hout].
    split; [intros [Heq | H]; [congruence | now apply Hin] |].
    intros Hnot. apply Hout. intros H. apply Hnot. now right.
Qed.

Lemma partlyAcquired_finish (rt : Runtime) (settings : AppSettings)
  (scenes : list StoryboardScene) (order finished : list nat)
  (updatedScenes : list StoryboardScene) :
  partlyAcquired rt settings scenes finished updatedScenes ->
  partlyAcquired rt settings scenes (rev order ++ finished)
    (finishCallbacks rt settings scenes order updatedScenes).
Proof.
  revert finished updatedScenes; induction order as [| index later IH];
    intros finished updatedScenes Hpart; cbn [finishCallbacks rev app]; [exact Hpart |].
  rewrite <- app_assoc; cbn [app].
  apply IH, partlyAcquired_step, Hpart.
Qed.

(** X14: the order in which the callbacks of [Promise.all] finish does not
    matter: when each has finished once, the array holds the acquired scene
    at every index. *)
Theorem acquisition_order_does_not_matter (rt : Runtime) (settings : AppSettings)
  (scenes : list StoryboardScene) (order : list nat) :
  Permutation order (seq 0 (List.length scenes)) ->
  finishCallbacks rt settings scenes order scenes = acquireAll rt settings scenes.
Proof.
  intros Hperm. apply nth_error_ext. intros j.
  assert (Hstart : partlyAcquired rt settings scenes [] scenes)
    by (intros k; split; [intros [] | reflexivity]).
  destruct (partlyAcquired_finish rt settings scenes order [] scenes Hstart j)
    as [Hin Hout].
  rewrite app_nil_r in Hin, Hout.
  unfold acquireAll. rewrite nth_error_map.
  destruct (Nat.lt_ge_cases j (List.length scenes)) as [Hlt | Hge].
  - apply Hin. apply in_rev. rewrite rev_involutive.
    apply (Permutation_in j (Permutation_sym Hperm)). apply in_seq. lia.
  - rewrite Hout.
    + apply nth_error_None in Hge. now rewrite Hge.
    + intros Hj. apply in_rev in Hj.
      apply (Permutation_in j Hperm) in Hj. apply in_seq in Hj. lia.
Qed.

Lemma acquisition_order_does_not_matter_witness :
  finishCallbacks speakingRuntime (geminiAt 1) [eightChars; twelveChars; fortyChars]
    [2; 0; 1]%nat [eightChars; twelveChars; fortyChars]
  = acquireAll speakingRuntime (geminiAt 1) [eightChars; twelveChars; fortyChars].
Proof.
  apply (acquisition_order_does_not_matter speakingRuntime (geminiAt 1)
           [eightChars; twelveChars; fortyChars] [2; 0; 1]%nat).
  cbn [List.length seq].
  apply Permutation_sym.
  apply (perm_trans (l' := [0; 2; 1]%nat)).
  - apply perm_skip, perm_swap.
  - apply perm_swap.
Defined.


(** X9: over the whole scene list, buffers keep their durations. *)
Theorem acquireAll_keeps_buffers_with_durations (rt : Runtime) (settings : AppSettings)
  (scenes : list StoryboardScene) :
  Forall bufferHasDuration scenes ->
  Forall bufferHasDuration (acquireAll rt settings scenes) /\
  List.length (acquireAll rt settings scenes) = List.length scenes.
Proof.
  intros Hall. unfold acquireAll. split; [| apply length_map].
  induction Hall as [| scene rest Hs _ IH]; cbn [map]; constructor; [| exact IH].
  now apply acquireAudio_keeps_pairing.
Qed.

Lemma acquireAll_keeps_buffers_with_durations_witness :
  Forall bufferHasDuration
    (acquireAll speakingRuntime (geminiAt 1) [eightChars; twelveChars]) /\
  List.length (acquireAll speakingRuntime (geminiAt 1) [eightChars; twelveChars])
  = List.length [eightChars; twelveChars].
Proof.
  apply (acquireAll_keeps_buffers_with_durations speakingRuntime (geminiAt 1)
           [eightChars; twelveChars]).
  repeat constructor; intros H; now contradiction H.
Defined.

(** C9, as amended: an empty [originalText] is replaced by a single space,
    every other text, white space only or not, is sent as it is, and the
    text sent is never empty. *)
Theorem only_empty_text_is_replaced (scene : StoryboardScene) :
  (originalText scene = ""%string -> ttsText scene = " "%string) /\
  (originalText scene <> ""%string -> ttsText scene = originalText scene) /\
  ttsText scene <> ""%string.
Proof.
  unfold ttsText. destruct (originalText scene) as [| c rest].
  - repeat split; [congruence | discriminate].
  - repeat split; discriminate.
Qed.

Lemma only_empty_text_is_replaced_witness : ttsText blankScene = " "%string.
Proof. exact (proj1 (only_empty_text_is_replaced blankScene) eq_refl). Defined.

(** C9 as stated fails: a text of two spaces and a line feed is white space
    only, and it is sent unchanged, not as a single space. *)
Lemma whitespace_text_is_sent_as_it_is :
  whitespaceOnly spacesAndNewline = true /\
  ttsText (newScene 5 spacesAndNewline "fog") = spacesAndNewline /\
  ttsText (newScene 5 spacesAndNewline "fog") <> " "%string /\
  whitespaceOnly (ttsText (newScene 5 spacesAndNewline "fog")) = true.
Proof. repeat split; try reflexivity. discriminate. Qed.

End AudioFacts.

(** ** The frame loop *)

Module FrameFacts.
Import Storyboard Audio Recorder.















End FrameFacts.

(** ** The export and its button *)

Module ExportFacts.
Import Storyboard Audio Recorder Exporter TimingFacts.

Lemma oneExport_step (rt : Runtime) (st : state) (e : event) :
  oneExport st -> oneExport (step rt st e).
Proof.
  intros [[Hflag Hnone] | [Hflag [snapshot Hone]]]; destruct e as [| | l]; cbn [step].
  - unfold clickExport, enterExport. rewrite Hflag.
    destruct (Nat.eqb _ 0); [left; auto |].
    destruct (negb (audioContext rt)); [left; auto |].
    right; cbn. rewrite Hnone. split; [reflexivity | exists (scenes st); reflexivity].
  - unfold leaveExport. rewrite Hnone. left; auto.
  - left; cbn; auto.
  - unfold clickExport. rewrite Hflag. right; eauto.
  - unfold leaveExport. rewrite Hone. left; cbn; auto.
  - right; cbn; eauto.
Qed.

Lemma oneExport_run (rt : Runtime) (st : state) (es : list event) :
  oneExport st -> oneExport (run rt st es).
Proof.
  revert st; induction es as [| e es IH]; intros st Hst; [exact Hst |].
  cbn [run fold_left]. apply IH, oneExport_step, Hst.
Qed.

(** C8: in every state the application can reach, at most one export is
    running; and while one is running the export button is disabled, so a
    click on it changes nothing: no second call of [handleExportVideo]
    starts, and the scene list the running export closed over, which
    decides its outcome, is the same. *)
Theorem second_export_request_is_ignored (rt : Runtime) (es : list event) :
  (List.length (inFlight (run rt initial es)) <= 1)%nat /\
  (inFlight (run rt initial es) <> [] ->
     isExporting (run rt initial es) = true /\
     step rt (run rt initial es) ClickExport = run rt initial es /\
     inFlight (run rt initial (es ++ [ClickExport])) = inFlight (run rt initial es)).
Proof.
  assert (Hinv : oneExport (run rt initial es))
    by (apply oneExport_run; left; split; reflexivity).
  destruct Hinv as [[Hflag Hnone] | [Hflag [snapshot Hone]]].
  - rewrite Hnone; split; [cbn; lia | congruence].
  - split; [rewrite Hone; cbn; lia |]. intros _.
    assert (Hclick : step rt (run rt initial es) ClickExport = run rt initial es)
      by (cbn [step]; unfold clickExport; now rewrite Hflag).
    split; [exact Hflag |]. split; [exact Hclick |].
    unfold run in *. rewrite fold_left_app; cbn [fold_left]. now rewrite Hclick.
Qed.

Lemma second_export_request_is_ignored_witness :
  isExporting (run rejectingRuntime initial [ScenesChanged [eightChars]; ClickExport]) = true /\
  step rejectingRuntime
    (run rejectingRuntime initial [ScenesChanged [eightChars]; ClickExport]) ClickExport
  = run rejectingRuntime initial [ScenesChanged [eightChars]; ClickExport] /\
  inFlight (run rejectingRuntime initial
              ([ScenesChanged [eightChars]; ClickExport] ++ [ClickExport]))
  = inFlight (run rejectingRuntime initial [ScenesChanged [eightChars]; ClickExport]).
Proof.
  apply (proj2 (second_export_request_is_ignored rejectingRuntime
                  [ScenesChanged [eightChars]; ClickExport])).
  cbn; discriminate.
Defined.

(** X12: the handler itself has no guard.  Called while an export runs,
    with scenes and an audio context, [handleExportVideo] starts a second
    one: only the disabled button keeps it from being called. *)
Theorem handler_alone_does_not_guard (rt : Runtime) (st : state) :
  scenes st <> [] -> audioContext rt = true ->
  inFlight (enterExport rt st) = inFlight st ++ [scenes st].
Proof.
  intros Hs Hctx. unfold enterExport.
  destruct (scenes st) as [| scene rest]; [congruence |].
  cbn [List.length Nat.eqb]. now rewrite Hctx.
Qed.

Lemma handler_alone_does_not_guard_witness :
  inFlight (enterExport rejectingRuntime
              (run rejectingRuntime initial [ScenesChanged [eightChars]; ClickExport]))
  = [[eightChars]; [eightChars]].
Proof.
  apply (handler_alone_does_not_guard rejectingRuntime
           (run rejectingRuntime initial [ScenesChanged [eightChars]; ClickExport]));
    [cbn; discriminate | reflexivity].
Defined.

(** C10: with an empty scene list [handleExportVideo] does nothing: no
    effect at all, so [isExporting] is not set, no audio is acquired,
    nothing is rendered and nothing is downloaded; the state of the
    application after the click is the state before it. *)
Theorem export_of_no_scenes_is_a_no_op (rt : Runtime) (settings : AppSettings)
  (st : state) :
  scenes st = [] ->
  handleExportVideo rt settings (scenes st) = [] /\
  enterExport rt st = st /\
  clickExport rt st = st.
Proof.
  intros Hs. unfold clickExport, enterExport, handleExportVideo. rewrite Hs.
  cbn [List.length Nat.eqb]. repeat split. now destruct (isExporting st).
Qed.

Lemma export_of_no_scenes_is_a_no_op_witness :
  handleExportVideo speakingRuntime (geminiAt 1) (scenes initial) = [] /\
  enterExport speakingRuntime initial = initial /\
  clickExport speakingRuntime initial = initial.
Proof.
  apply (export_of_no_scenes_is_a_no_op speakingRuntime (geminiAt 1) initial).
  reflexivity.
Defined.

(** X13: a call of [handleExportVideo] that sets [isExporting] clears it
    again as its last but one effect, whatever the recording did. *)
Theorem export_flag_is_always_cleared (rt : Runtime) (settings : AppSettings)
  (scenes : list StoryboardScene) :
  In (SetIsExporting true) (handleExportVideo rt settings scenes) ->
  exists before,
    handleExportVideo rt settings scenes
    = before ++ [SetIsExporting false; SetExportProgress ProgressNone].
Proof.
  unfold handleExportVideo.
  destruct (Nat.eqb (List.length scenes) 0); [intros [] |].
  destruct (negb (audioContext rt)); [intros [H | []]; discriminate H |].
  intros _. rewrite app_assoc. eexists. reflexivity.
Qed.

Lemma export_flag_is_always_cleared_witness :
  exists before,
    handleExportVideo rejectingRuntime (geminiAt 1) [fortyChars]
    = before ++ [SetIsExporting false; SetExportProgress ProgressNone].
Proof.
  apply (export_flag_is_always_cleared rejectingRuntime (geminiAt 1) [fortyChars]).
  cbn. left; reflexivity.
Defined.

Example export_of_one_silent_scene :
  handleExportVideo rejectingRuntime (geminiAt 1) [eightChars]
  = [SetIsExporting true; SetExportProgress ProgressSpeech;
     AcquireAudio eightChars;
     SetScenes [eightChars]; SetExportProgress ProgressRender;
     RecordVideo [eightChars]; Download;
     SetIsExporting false; SetExportProgress ProgressNone].
Proof. reflexivity. Qed.

End ExportFacts.

(** ** Reordering by drag and drop *)

Module ReorderFacts.
Import Storyboard Audio Reorder.

Lemma removeAt_insertAt {A : Type} (k : nat) (x : A) (l : list A) :
  (k <= List.length l)%nat -> RequestQueue.removeAt k (insertAt k x l) = l.
Proof.
  revert l; induction k as [| k IH]; intros [| y l] Hk; cbn in *; try reflexivity; try lia.
  now rewrite IH by lia.
Qed.

Lemma nth_error_insertAt {A : Type} (k : nat) (x : A) (l : list A) :
  (k <= List.length l)%nat -> nth_error (insertAt k x l) k = Some x.
Proof.
  revert l; induction k as [| k IH]; intros [| y l] Hk; cbn in *; try reflexivity; try lia.
  apply IH; lia.
Qed.

Lemma insertAt_perm {A : Type} (k : nat) (x : A) (l : list A) :
  Permutation (insertAt k x l) (x :: l).
Proof.
  revert l; induction k as [| k IH]; intros [| y l]; cbn; try apply Permutation_refl.
  eapply perm_trans; [apply perm_skip, IH | apply perm_swap].
Qed.

Lemma removeAt_perm {A : Type} (k : nat) (x : A) (l : list A) :
  nth_error l k = Some x -> Permutation (x :: RequestQueue.removeAt k l) l.
Proof.
  revert k; induction l as [| y l IH]; intros [| k] Hk; cbn in *; try discriminate.
  - injection Hk as ->. apply Permutation_refl.
  - eapply perm_trans; [apply perm_swap | apply perm_skip, IH, Hk].
Qed.

(** X15: a drop of a dragged scene on another card moves that one scene to
    the card's place and nothing else: the new list is a permutation of the
    old one, of the same length, the dragged scene stands at the target
    index, the other scenes keep their order, and the drag is over. *)
Theorem handleDrop_moves_one_scene (scenes : list StoryboardScene)
  (dragged targetIndex : nat) (item : StoryboardScene) :
  nth_error scenes dragged = Some item ->
  (targetIndex < List.length scenes)%nat ->
  dragged <> targetIndex ->
  exists newScenes,
    handleDrop targetIndex (scenes, Some dragged) = Some (newScenes, None) /\
    Permutation newScenes scenes /\
    List.length newScenes = List.length scenes /\
    nth_error newScenes targetIndex = Some item /\
    RequestQueue.removeAt targetIndex newScenes = RequestQueue.removeAt dragged scenes.
Proof.
  intros Hitem Htarget Hne.
  assert (Hdragged : (dragged < List.length scenes)%nat)
    by (apply nth_error_Some; congruence).
  pose proof (QueueFacts.length_removeAt dragged scenes Hdragged) as Hlen.
  exists (insertAt targetIndex item (RequestQueue.removeAt dragged scenes)).
  assert (Hperm : Permutation
                    (insertAt targetIndex item (RequestQueue.removeAt dragged scenes))
                    scenes).
  { eapply perm_trans; [apply insertAt_perm | apply removeAt_perm, Hitem]. }
  split.
  { unfold handleDrop. apply Nat.eqb_neq in Hne. now rewrite Hne, Hitem. }
  split; [exact Hperm |].
  split; [apply Permutation_length, Hperm |].
  split; [apply nth_error_insertAt; lia | apply removeAt_insertAt; lia].
Qed.

Lemma handleDrop_moves_one_scene_witness :
  exists newScenes,
    handleDrop 0 ([eightChars; twelveChars; fortyChars], Some 2%nat)
      = Some (newScenes, None) /\
    Permutation newScenes [eightChars; twelveChars; fortyChars] /\
    List.length newScenes = 3%nat /\
    nth_error newScenes 0 = Some fortyChars /\
    RequestQueue.removeAt 0 newScenes = [eightChars; twelveChars].
Proof.
  apply (handleDrop_moves_one_scene
           [eightChars; twelveChars; fortyChars] 2 0 fortyChars);
    [reflexivity | cbn; lia | discriminate].
Defined.



End ReorderFacts.

(** ** Saving and loading the scenes *)

Module PersistenceFacts.
Import Storyboard Audio Reorder Persistence.

Lemma ascending_cons (x : StoryboardScene) (l : list StoryboardScene) :
  ascending (x :: l) <-> ascending l /\ Forall (fun y => (id x < id y)%Z) l.
Proof.
  unfold ascending; split.
  - intros H; inversion H; subst; auto.
  - intros [H1 H2]; now constructor.
Qed.

Lemma In_put (scene x : StoryboardScene) (store : objectStore) :
  ascending store ->
  (In x (put scene store) <-> x = scene \/ (In x store /\ id x <> id scene)).
Proof.
  induction store as [| record later IH]; intros Hasc; cbn [put].
  - cbn; intuition.
  - apply ascending_cons in Hasc. destruct Hasc as [Hlater Hall].
    rewrite Forall_forall in Hall.
    destruct (Z.compare_spec (id scene) (id record)) as [Heq | Hlt | Hgt]; cbn [In].
    + split.
      * intros [<- | Hin]; [now left |]. right. split; [now right |].
        specialize (Hall x Hin). lia.
      * intros [-> | [[<- | Hin] Hne]]; [now left | congruence | now right].
    + split.
      * intros [<- | [<- | Hin]]; [now left | right; split; [now left | lia] |].
        right; split; [now right |]. specialize (Hall x Hin). lia.
      * intros [-> | [Hin Hne]]; [now left | now right].
    + rewrite (IH Hlater). split.
      * intros [<- | [-> | [Hin Hne]]]; [right; split; [now left | lia] | now left |].
        right; split; [now right | exact Hne].
      * intros [-> | [[<- | Hin] Hne]]; [right; now left | now left |].
        right; right; now split.
Qed.

Lemma put_ascending (scene : StoryboardScene) (store : objectStore) :
  ascending store -> ascending (put scene store).
Proof.
  induction store as [| record later IH]; intros Hasc; cbn [put].
  - repeat constructor.
  - pose proof Hasc as Hasc'.
    apply ascending_cons in Hasc. destruct Hasc as [Hlater Hall].
    destruct (Z.compare_spec (id scene) (id record)) as [Heq | Hlt | Hgt].
    + apply ascending_cons. split; [exact Hlater |].
      rewrite Heq. exact Hall.
    + apply ascending_cons. split; [exact Hasc' |].
      constructor; [exact Hlt |].
      revert Hall. apply Forall_impl. intros y Hy. lia.
    + apply ascending_cons. split; [apply IH, Hlater |].
      apply Forall_forall. intros y Hy.
      apply (In_put scene y later Hlater) in Hy.
      rewrite Forall_forall in Hall.
      destruct Hy as [-> | [Hy _]]; [lia | now apply Hall].
Qed.

(** Two stores with the same records are the same store. *)
Lemma ascending_ext (l1 l2 : list StoryboardScene) :
  ascending l1 -> ascending l2 -> (forall x, In x l1 <-> In x l2) -> l1 = l2.
Proof.
  revert l2; induction l1 as [| a l1 IH]; intros [| b l2] H1 H2 Hsame.
  - reflexivity.
  - exfalso. apply (proj2 (Hsame b)). now left.
  - exfalso. apply (proj1 (Hsame a)). now left.
  - apply ascending_cons in H1. destruct H1 as [H1 Ha].
    apply ascending_cons in H2. destruct H2 as [H2 Hb].
    rewrite Forall_forall in Ha, Hb.
    assert (Hab : a = b).
    { destruct (proj1 (Hsame a) (or_introl eq_refl)) as [Heq | Hin]; [now symmetry |].
      destruct (proj2 (Hsame b) (or_introl eq_refl)) as [Heq | Hin']; [exact Heq |].
      specialize (Ha b Hin'). specialize (Hb a Hin). lia. }
    subst b. f_equal. apply IH; [exact H1 | exact H2 |].
    intros x; split; intros Hin.
    + destruct (proj1 (Hsame x) (or_intror Hin)) as [<- | H]; [| exact H].
      specialize (Ha a Hin). lia.
    + destruct (proj2 (Hsame x) (or_intror Hin)) as [<- | H]; [| exact H].
      specialize (Hb a Hin). lia.
Qed.

Lemma In_insertById (scene x : StoryboardScene) (l : list StoryboardScene) :
  In x (insertById scene l) <-> x = scene \/ In x l.
Proof.
  induction l as [| y l IH]; cbn [insertById]; [cbn; intuition |].
  destruct (id scene <=? id y)%Z; cbn [In]; [intuition |].
  rewrite IH. intuition.
Qed.

Lemma In_sortById (x : StoryboardScene) (l : list StoryboardScene) :
  In x (sortById l) <-> In x l.
Proof.
  induction l as [| y l IH]; cbn [sortById fold_right]; [tauto |].
  fold (sortById l). rewrite In_insertById, IH. cbn; intuition.
Qed.

Lemma insertById_perm (scene : StoryboardScene) (l : list StoryboardScene) :
  Permutation (insertById scene l) (scene :: l).
Proof.
  induction l as [| y l IH]; cbn [insertById]; [apply Permutation_refl |].
  destruct (id scene <=? id y)%Z; [apply Permutation_refl |].
  eapply perm_trans; [apply perm_skip, IH | apply perm_swap].
Qed.

Lemma sortById_perm (l : list StoryboardScene) : Permutation (sortById l) l.
Proof.
  induction l as [| y l IH]; cbn [sortById fold_right]; [constructor |].
  fold (sortById l). eapply perm_trans; [apply insertById_perm | now apply perm_skip].
Qed.

Lemma insertById_ascending (scene : StoryboardScene) (l : list StoryboardScene) :
  ascending l -> ~ In (id scene) (sceneIds l) -> ascending (insertById scene l).
Proof.
  induction l as [| y l IH]; intros Hasc Hfresh; cbn [insertById].
  - repeat constructor.
  - pose proof Hasc as Hasc'.
    apply ascending_cons in Hasc. destruct Hasc as [Hl Hall].
    cbn in Hfresh.
    destruct (Z.leb_spec (id scene) (id y)) as [Hle | Hgt].
    + apply ascending_cons. split; [exact Hasc' |].
      assert (id scene < id y)%Z by (assert (id y <> id scene) by tauto; lia).
      constructor; [assumption |].
      revert Hall. apply Forall_impl. intros z Hz. lia.
    + apply ascending_cons. split; [apply IH; tauto |].
      apply Forall_forall. intros z Hz. apply In_insertById in Hz.
      rewrite Forall_forall in Hall. destruct Hz as [-> | Hz]; [lia | now apply Hall].
Qed.

Lemma sortById_ascending (l : list StoryboardScene) :
  NoDup (sceneIds l) -> ascending (sortById l).
Proof.
  induction l as [| y l IH]; intros Hnd; cbn [sortById fold_right].
  - constructor.
  - fold (sortById l). cbn in Hnd. inversion Hnd as [| ? ? Hfresh Hnd']; subst.
    apply insertById_ascending; [apply IH, Hnd' |].
    intros Hin. apply Hfresh. unfold sceneIds in *.
    apply in_map_iff in Hin. destruct Hin as (z & Hz & Hin).
    apply in_map_iff. exists z. split; [exact Hz | now apply In_sortById].
Qed.

(** A list already in ascending order is left as it is. *)
Lemma sortById_ascending_id (l : list StoryboardScene) :
  ascending l -> sortById l = l.
Proof.
  induction l as [| y l IH]; intros Hasc; cbn [sortById fold_right]; [reflexivity |].
  fold (sortById l). apply ascending_cons in Hasc. destruct Hasc as [Hl Hall].
  rewrite (IH Hl). destruct l as [| z l]; [reflexivity |].
  cbn [insertById]. inversion Hall; subst.
  destruct (Z.leb_spec (id y) (id z)); [reflexivity | lia].
Qed.

Lemma ascending_NoDup (l : list StoryboardScene) :
  ascending l -> NoDup (sceneIds l).
Proof.
  induction l as [| y l IH]; intros Hasc; cbn; [constructor |].
  apply ascending_cons in Hasc. destruct Hasc as [Hl Hall].
  constructor; [| now apply IH].
  intros Hin. unfold sceneIds in Hin. apply in_map_iff in Hin.
  destruct Hin as (z & Hz & Hin). rewrite Forall_forall in Hall.
  specialize (Hall z Hin). lia.
Qed.

Lemma saveAll_allOk (first : nat) (scenes : list StoryboardScene) (store : objectStore) :
  saveAll allOk first scenes store = (putAll scenes store, RequestQueue.Normal).
Proof.
  revert first store; induction scenes as [| scene later IH]; intros first store;
    cbn [saveAll putAll fold_left]; [reflexivity |].
  unfold allOk at 1; cbn [dbPutScene]. apply IH.
Qed.

Lemma putAll_ascending (scenes : list StoryboardScene) (store : objectStore) :
  ascending store -> ascending (putAll scenes store).
Proof.
  revert store; induction scenes as [| scene later IH]; intros store Hasc;
    cbn [putAll fold_left]; [exact Hasc |].
  apply IH, put_ascending, Hasc.
Qed.

Lemma In_putAll (scenes : list StoryboardScene) (store : objectStore)
  (x : StoryboardScene) :
  ascending store -> NoDup (sceneIds scenes) ->
  (In x (putAll scenes store)
   <-> In x scenes \/ (In x store /\ ~ In (id x) (sceneIds scenes))).
Proof.
  revert store; induction scenes as [| scene later IH]; intros store Hasc Hnd;
    cbn [putAll fold_left].
  - cbn; intuition.
  - cbn in Hnd. inversion Hnd as [| ? ? Hfresh Hnd']; subst.
    fold (putAll later (put scene store)).
    rewrite (IH (put scene store) (put_ascending scene store Hasc) Hnd').
    rewrite (In_put scene x store Hasc). cbn [In sceneIds map].
    fold (sceneIds later). split.
    + intros [Hin | [[-> | [Hin Hne]] Hout]]; [left; now right | left; now left |].
      right; split; [exact Hin |]. intros [Heq | H]; [congruence | contradiction].
    + intros [[<- | Hin] | [Hin Hout]].
      * right; split; [now left | exact Hfresh].
      * now left.
      * right; split; [right; split; [exact Hin |] |]; intros H; apply Hout; auto.
Qed.

(** After a save in which every operation succeeds, over a store that holds
    no other scenes, the store is the list sorted by [id]. *)
Lemma putAll_is_sorted (scenes : list StoryboardScene) (store : objectStore) :
  NoDup (sceneIds scenes) -> ascending store ->
  (forall x, In x store -> In (id x) (sceneIds scenes)) ->
  putAll scenes store = sortById scenes.
Proof.
  intros Hnd Hasc Hkeys.
  apply ascending_ext;
    [apply putAll_ascending, Hasc | apply sortById_ascending, Hnd |].
  intros x. rewrite (In_putAll scenes store x Hasc Hnd), In_sortById.
  split; [| now left].
  intros [Hin | [Hin Hout]]; [exact Hin |]. contradiction Hout. now apply Hkeys.
Qed.

Lemma handleDrop_perm (scenes newScenes : list StoryboardScene)
  (draggedIndex after : option nat) (targetIndex : nat) :
  handleDrop targetIndex (scenes, draggedIndex) = Some (newScenes, after) ->
  Permutation newScenes scenes.
Proof.
  unfold handleDrop. intros Hdrop.
  destruct draggedIndex as [dragged |]; [| injection Hdrop as <- _; apply Permutation_refl].
  destruct (Nat.eqb dragged targetIndex); [injection Hdrop as <- _; apply Permutation_refl |].
  destruct (nth_error scenes dragged) as [item |] eqn:Hitem; [| discriminate].
  injection Hdrop as <- _.
  eapply perm_trans;
    [apply ReorderFacts.insertAt_perm | apply ReorderFacts.removeAt_perm, Hitem].
Qed.

Lemma reload_sorted (scenes : list StoryboardScene) (store : objectStore) :
  NoDup (sceneIds scenes) -> ascending store ->
  (forall x, In x store -> In (id x) (sceneIds scenes)) ->
  loadScenes DbOk (saveEffect allOk scenes store) = Some (sortById scenes) /\
  ascending (sortById scenes).
Proof.
  intros Hnd Hasc Hkeys. split; [| apply sortById_ascending, Hnd].
  unfold loadScenes, saveEffect. cbn [dbGetAllScenes option_map]. f_equal.
  destruct scenes as [| scene later].
  - destruct store as [| x store]; [reflexivity |].
    destruct (Hkeys x (or_introl eq_refl)).
  - rewrite saveAll_allOk. cbn [fst].
    rewrite (putAll_is_sorted _ _ Hnd Hasc Hkeys).
    apply sortById_ascending_id, sortById_ascending, Hnd.
Qed.

(** X17: when every database operation succeeds and the scenes have
    distinct ids, saving a scene list (over a store that holds only scenes of
    that list, such as the cleared store) and loading it again gives the
    same scenes, every field as saved, in ascending order of [id]: the very
    list when it was in that order. *)
Theorem reload_returns_saved_scenes (scenes : list StoryboardScene)
  (store : objectStore) :
  NoDup (sceneIds scenes) -> ascending store ->
  (forall x, In x store -> In (id x) (sceneIds scenes)) ->
  loadScenes DbOk (saveEffect allOk scenes store) = Some (sortById scenes) /\
  Permutation (sortById scenes) scenes /\
  ascending (sortById scenes) /\
  (ascending scenes -> loadScenes DbOk (saveEffect allOk scenes store) = Some scenes).
Proof.
  intros Hnd Hasc Hkeys.
  destruct (reload_sorted scenes store Hnd Hasc Hkeys) as [Hload Hsorted].
  split; [exact Hload |]. split; [apply sortById_perm |].
  split; [exact Hsorted |].
  intros Hscenes. now rewrite Hload, (sortById_ascending_id scenes Hscenes).
Qed.

Lemma reload_returns_saved_scenes_witness :
  loadScenes DbOk (saveEffect allOk [twelveChars; fortyChars; eightChars] [])
  = Some (sortById [twelveChars; fortyChars; eightChars]).
Proof.
  apply (reload_returns_saved_scenes [twelveChars; fortyChars; eightChars] []).
  - repeat constructor; cbn; intuition discriminate.
  - constructor.
  - intros x [].
Defined.

(** X18: the order a drag and drop gives is not kept by a reload.  When
    the scenes stand in ascending order of [id], as analysis creates them,
    and the reordered list is saved over them, loading gives the order
    before the drop. *)
Theorem reload_forgets_the_reordering (scenes newScenes : list StoryboardScene)
  (dragged targetIndex : nat) :
  ascending scenes ->
  handleDrop targetIndex (scenes, Some dragged) = Some (newScenes, None) ->
  loadScenes DbOk (saveEffect allOk newScenes (saveEffect allOk scenes [])) = Some scenes.
Proof.
  intros Hasc Hdrop.
  pose proof (handleDrop_perm _ _ _ _ _ Hdrop) as Hperm.
  assert (Hnd : NoDup (sceneIds newScenes)).
  { apply (Permutation_NoDup (l := sceneIds scenes));
      [apply Permutation_map, Permutation_sym, Hperm | apply ascending_NoDup, Hasc]. }
  assert (Hfirst : saveEffect allOk scenes [] = scenes).
  { unfold saveEffect. destruct scenes as [| scene later] eqn:E; [reflexivity |].
    rewrite saveAll_allOk. cbn [fst]. rewrite <- E in *.
    rewrite putAll_is_sorted;
      [apply sortById_ascending_id, Hasc | apply ascending_NoDup, Hasc | constructor |].
    intros x []. }
  rewrite Hfirst.
  assert (Hkeys : forall x, In x scenes -> In (id x) (sceneIds newScenes)).
  { intros x Hin. apply in_map. apply (Permutation_in x (Permutation_sym Hperm) Hin). }
  destruct (reload_sorted newScenes scenes Hnd Hasc Hkeys) as [Hload Hsorted].
  rewrite Hload. f_equal.
  apply ascending_ext; [exact Hsorted | exact Hasc |].
  intros x. rewrite In_sortById.
  split; intros Hin; [apply (Permutation_in x Hperm Hin) |
                      apply (Permutation_in x (Permutation_sym Hperm) Hin)].
Qed.

Lemma reload_forgets_the_reordering_witness :
  loadScenes DbOk
    (saveEffect allOk [eightChars; fortyChars; twelveChars]
       (saveEffect allOk [fortyChars; twelveChars; eightChars] []))
  = Some [fortyChars; twelveChars; eightChars].
Proof.
  apply (reload_forgets_the_reordering
           [fortyChars; twelveChars; eightChars] [eightChars; fortyChars; twelveChars] 2 0).
  - repeat constructor; cbn; lia.
  - reflexivity.
Defined.

(** X19: failures of the database while saving.  When [openDB()] rejects
    the scene is skipped without a trace; when a request fails the loop is
    left by a rejection nobody handles: the scenes before it are stored, the
    scenes after it are not.  Whatever fails, the store keeps one record per
    key and holds nothing but what it held and what was saved. *)
Theorem save_failures (outcomes : nat -> dbOutcome) (first : nat)
  (scenes : list StoryboardScene) (store : objectStore) :
  ascending store ->
  ascending (fst (saveAll outcomes first scenes store)) /\
  (forall x, In x (fst (saveAll outcomes first scenes store)) -> In x store \/ In x scenes) /\
  ((forall k, outcomes k = OpenFails) ->
     saveAll outcomes first scenes store = (store, RequestQueue.Normal)) /\
  (forall k scene,
     (forall j, (j < k)%nat -> outcomes (first + j)%nat = DbOk) ->
     outcomes (first + k)%nat = RequestFails ->
     nth_error scenes k = Some scene ->
     saveAll outcomes first scenes store
     = (putAll (firstn k scenes) store, RequestQueue.Throws)).
Proof.
  intros Hasc.
  split; [| split; [| split]].
  - revert first store Hasc; induction scenes as [| scene later IH];
      intros first store Hasc; cbn [saveAll fst]; [exact Hasc |].
    destruct (outcomes first); cbn [dbPutScene fst]; auto.
    apply IH, put_ascending, Hasc.
  - revert first store Hasc; induction scenes as [| scene later IH];
      intros first store Hasc x; cbn [saveAll fst]; [now left |].
    destruct (outcomes first); cbn [dbPutScene fst].
    + intros Hin. destruct (IH _ _ Hasc x Hin); [now left | right; now right].
    + now left.
    + intros Hin.
      destruct (IH _ _ (put_ascending scene store Hasc) x Hin) as [H | H];
        [| right; now right].
      apply (In_put scene x store Hasc) in H.
      destruct H as [-> | [H _]]; [right; now left | now left].
  - intros Hopen. revert first; induction scenes as [| scene later IH]; intros first;
      cbn [saveAll]; [reflexivity |].
    rewrite Hopen; cbn [dbPutScene]. apply IH.
  - intros k. revert first scenes store Hasc.
    induction k as [| k IH]; intros first scenes store Hasc scene Hok Hfail Hk;
      destruct scenes as [| head later]; cbn in Hk; try discriminate.
    + cbn [saveAll firstn putAll fold_left].
      rewrite Nat.add_0_r in Hfail. now rewrite Hfail.
    + cbn [saveAll firstn putAll fold_left].
      rewrite <- (Nat.add_0_r first) at 1. rewrite (Hok 0%nat) by lia.
      cbn [dbPutScene].
      apply (IH (S first) later (put head store) (put_ascending head store Hasc) scene).
      * intros j Hj. replace (S first + j)%nat with (first + S j)%nat by lia.
        apply Hok. lia.
      * replace (S first + k)%nat with (first + S k)%nat by lia. exact Hfail.
      * exact Hk.
Qed.

Lemma save_failures_witness :
  saveAll (fun k => if Nat.eqb k 1 then RequestFails else DbOk) 0
    [fortyChars; twelveChars; eightChars] []
  = (putAll (firstn 1 [fortyChars; twelveChars; eightChars]) [], RequestQueue.Throws).
Proof.
  refine (proj2 (proj2 (proj2
            (save_failures (fun k => if Nat.eqb k 1 then RequestFails else DbOk) 0
               [fortyChars; twelveChars; eightChars] [] _))) 1%nat twelveChars _ _ _).
  - constructor.
  - intros [| j] Hj; [reflexivity | lia].
  - reflexivity.
  - reflexivity.
Defined.

End PersistenceFacts.

(** ** The canvas *)

Module CanvasFacts.
Import Recorder Canvas.


Lemma coverFit_covers (width height imgWidth imgHeight : Q) :
  0 < imgWidth -> 0 < imgHeight ->
  width <= rectW (coverFit width height imgWidth imgHeight) /\
  height <= rectH (coverFit width height imgWidth imgHeight).
Proof.
  intros Hw Hh. unfold coverFit; cbn [rectW rectH].
  pose proof (Q.le_max_l (width / imgWidth) (height / imgHeight)) as H1.
  pose proof (Q.le_max_r (width / imgWidth) (height / imgHeight)) as H2.
  set (m := Qmax (width / imgWidth) (height / imgHeight)) in *.
  split.
  - setoid_replace width with (imgWidth * (width / imgWidth)) at 1 by (field; lra).
    apply Qmult_le_l; assumption.
  - setoid_replace height with (imgHeight * (height / imgHeight)) at 1 by (field; lra).
    apply Qmult_le_l; assumption.
Qed.


(** X20: cover fit.  An image of positive size is drawn with its aspect
    ratio kept, centred on the canvas, at least as wide and as high as the
    canvas and exactly as wide or as high; so it starts at or before the
    left and top edges. *)
Theorem coverFit_fills_the_canvas (width height imgWidth imgHeight : Q) :
  0 < imgWidth -> 0 < imgHeight ->
  width <= rectW (coverFit width height imgWidth imgHeight) /\
  height <= rectH (coverFit width height imgWidth imgHeight) /\
  (rectW (coverFit width height imgWidth imgHeight) == width \/
   rectH (coverFit width height imgWidth imgHeight) == height) /\
  rectW (coverFit width height imgWidth imgHeight) * imgHeight
    == rectH (coverFit width height imgWidth imgHeight) * imgWidth /\
  rectX (coverFit width height imgWidth imgHeight)
    + rectW (coverFit width height imgWidth imgHeight) / 2 == width / 2 /\
  rectY (coverFit width height imgWidth imgHeight)
    + rectH (coverFit width height imgWidth imgHeight) / 2 == height / 2 /\
  rectX (coverFit width height imgWidth imgHeight) <= 0 /\
  rectY (coverFit width height imgWidth imgHeight) <= 0.
Proof.
  intros Hw Hh.
  destruct (coverFit_covers width height imgWidth imgHeight Hw Hh) as [Hcw Hch].
  split; [exact Hcw |]. split; [exact Hch |].
  unfold coverFit in *; cbn [rectX rectY rectW rectH] in *.
  set (m := Qmax (width / imgWidth) (height / imgHeight)) in *.
  split.
  { destruct (Q.max_dec (width / imgWidth) (height / imgHeight)) as [Hm | Hm];
      fold m in Hm; [left | right]; rewrite Hm; field; lra. }
  split; [ring |]. split; [field |]. split; [field |].
  split.
  - setoid_replace ((width - imgWidth * m) / 2) with ((width - imgWidth * m) * (1 # 2))
      by field. lra.
  - setoid_replace ((height - imgHeight * m) / 2) with ((height - imgHeight * m) * (1 # 2))
      by field. lra.
Qed.

Lemma coverFit_fills_the_canvas_witness :
  1280 <= rectW (coverFit 1280 720 1024 1024) /\
  720 <= rectH (coverFit 1280 720 1024 1024).
Proof.
  destruct (coverFit_fills_the_canvas 1280 720 1024 1024) as (H1 & H2 & _);
    [reflexivity | reflexivity |].
  exact (conj H1 H2).
Defined.



End CanvasFacts.

(** ** How long the frame loop runs *)

Module LoopFacts.
Import Recorder.




End LoopFacts.

(** ** Image generation and the queue *)

Module GenerationFacts.
Import Storyboard RequestQueue Generation.

Ltac fields := cbn [queue activeCount pending started unhandled fst snd] in *.

(** What [add] and a settlement start: at most the head of the queue. *)
Lemma add_cases (task : task) (q : t) :
  exists newly,
    started (fst (add task q)) = started q ++ newly /\
    pending (fst (add task q)) = pending q ++ flat_map promiseOf newly /\
    queue q ++ [task] = newly ++ queue (fst (add task q)) /\
    unhandled (fst (add task q)) = unhandled q.
Proof.
  unfold add.
  destruct (QueueFacts.process_cases (push task q))
    as [[Heq _] | (head & rest & Hq & _ & Heq)]; rewrite Heq; unfold push in *; fields.
  - exists []. cbn [flat_map List.app]. now rewrite !app_nil_r.
  - exists [head]. cbn [flat_map List.app]. now rewrite app_nil_r, Hq.
Qed.

Lemma settle_cases (k : nat) (q : t) (job : task) :
  nth_error (pending q) k = Some job ->
  exists newly,
    started (settle k true q) = started q ++ newly /\
    pending (settle k true q) = removeAt k (pending q) ++ flat_map promiseOf newly /\
    queue q = newly ++ queue (settle k true q) /\
    (Forall wellBehaved newly -> unhandled (settle k true q) = unhandled q).
Proof.
  intros Hk. unfold settle. rewrite Hk. unfold onFinally.
  match goal with |- context [process ?q0] =>
    destruct (QueueFacts.process_cases q0)
      as [[Heq _] | (head & rest & Hq & _ & Heq)]; rewrite Heq
  end; fields.
  - exists []. cbn [flat_map List.app]. now rewrite !app_nil_r.
  - exists [head]. cbn [flat_map List.app]. rewrite app_nil_r.
    unfold outcomeOf. destruct (invoke head) eqn:Hinv; fields; repeat split; auto.
    intros Hwb. inversion Hwb as [| ? ? Hhead _]; subst.
    unfold wellBehaved in Hhead. congruence.
Qed.

Lemma newlyStarted_app (before after : t) (newly : list task) :
  started after = started before ++ newly -> newlyStarted before after = newly.
Proof.
  intros H. unfold newlyStarted. rewrite H.
  rewrite skipn_app, skipn_all, Nat.sub_diag. reflexivity.
Qed.

Lemma promiseOf_wellBehaved (newly : list task) :
  Forall wellBehaved newly -> flat_map promiseOf newly = newly.
Proof.
  induction 1 as [| task l Hwb _ IH]; [reflexivity |].
  cbn [flat_map]. unfold promiseOf at 1. rewrite Hwb. cbn. now rewrite IH.
Qed.

Lemma In_removeAt {A : Type} (k : nat) (l : list A) (x y : A) :
  nth_error l k = Some y -> In x l -> x <> y -> In x (removeAt k l).
Proof.
  revert k; induction l as [| z l IH]; intros [| k] Hk Hin Hne; cbn in *;
    try discriminate.
  - injection Hk as ->. destruct Hin as [-> | Hin]; [congruence | exact Hin].
  - destruct Hin as [-> | Hin]; [now left | right; eapply IH; eauto].
Qed.

Lemma removeAt_incl {A : Type} (k : nat) (l : list A) (x : A) :
  In x (removeAt k l) -> In x l.
Proof.
  revert k; induction l as [| z l IH]; intros [| k] Hin; cbn in *; auto.
  destruct Hin as [-> | Hin]; [now left | right; eapply IH; eauto].
Qed.

(** Every scene of [l] that shows as generating has a job among [jobs]. *)
Definition witnessed (targets : list Z) (jobs : list task)
  (l : list StoryboardScene) : Prop :=
  forall scene, In scene l -> isGeneratingImages scene = true ->
    exists task, In task jobs /\ sceneOf targets task = id scene.

Lemma witnessed_incl (targets : list Z) (jobs jobs' : list task)
  (l : list StoryboardScene) :
  (forall task, In task jobs -> In task jobs') ->
  witnessed targets jobs l -> witnessed targets jobs' l.
Proof.
  intros Hincl Hw scene Hin Hflag.
  destruct (Hw scene Hin Hflag) as (task & Htask & Hid). eauto.
Qed.

Lemma witnessed_more_targets (targets more : list Z) (jobs : list task)
  (l : list StoryboardScene) :
  (forall task, In task jobs -> (task_id task < List.length targets)%nat) ->
  witnessed targets jobs l -> witnessed (targets ++ more) jobs l.
Proof.
  intros Hknown Hw scene Hin Hflag.
  destruct (Hw scene Hin Hflag) as (task & Htask & Hid).
  exists task. split; [exact Htask |].
  unfold sceneOf in *. rewrite app_nth1; [exact Hid | now apply Hknown].
Qed.

(** An update that keeps the id and does not set the flag keeps the jobs. *)
Lemma witnessed_update (targets : list Z) (jobs : list task) (sceneId : Z)
  (f : StoryboardScene -> StoryboardScene) (l : list StoryboardScene) :
  (forall s, id (f s) = id s) ->
  (forall s, isGeneratingImages (f s) = true -> isGeneratingImages s = true) ->
  witnessed targets jobs l -> witnessed targets jobs (updateScene sceneId f l).
Proof.
  intros Hid Hflag Hw scene Hin Hset. unfold updateScene in Hin.
  apply in_map_iff in Hin. destruct Hin as (s & Hs & Hin).
  destruct (id s =? sceneId)%Z; subst scene; [| now apply Hw].
  rewrite Hid. apply Hw; [exact Hin | now apply Hflag].
Qed.

Lemma witnessed_start (targets : list Z) (jobs : list task) (task : task)
  (l : list StoryboardScene) :
  witnessed targets jobs l ->
  witnessed targets (jobs ++ [task]) (generationStarted (sceneOf targets task) l).
Proof.
  intros Hw scene Hin Hset. unfold generationStarted, updateScene in Hin.
  apply in_map_iff in Hin. destruct Hin as (s & Hs & Hin).
  destruct (Z.eqb_spec (id s) (sceneOf targets task)) as [Heq | Hne]; subst scene.
  - exists task. split; [apply in_or_app; right; now left | cbn; congruence].
  - destruct (Hw s Hin Hset) as (other & Hother & Hid).
    exists other. split; [apply in_or_app; now left | exact Hid].
Qed.

Lemma witnessed_startJobs (targets : list Z) (jobs newly : list task)
  (l : list StoryboardScene) :
  witnessed targets jobs l ->
  witnessed targets (jobs ++ newly) (startJobs targets newly l).
Proof.
  revert jobs l; induction newly as [| task newly IH]; intros jobs l Hw;
    cbn [startJobs fold_left].
  - now rewrite app_nil_r.
  - change (task :: newly) with ([task] ++ newly). rewrite app_assoc.
    apply (IH (jobs ++ [task])). now apply witnessed_start.
Qed.

Lemma witnessed_jobDone (targets : list Z) (jobs : list task) (k : nat)
  (job : task) (result : option (list string)) (l : list StoryboardScene) :
  nth_error jobs k = Some job ->
  witnessed targets jobs l ->
  witnessed targets (removeAt k jobs) (jobDone (sceneOf targets job) result l).
Proof.
  intros Hk Hw scene Hin Hset.
  assert (Hfrom : exists s, In s l /\ id s = id scene /\ isGeneratingImages s = true /\
                            id s <> sceneOf targets job).
  { unfold jobDone, generationCompleted, generationFailed, updateScene in Hin.
    destruct result as [newImages |]; apply in_map_iff in Hin;
      destruct Hin as (s & Hs & Hin);
      (destruct (Z.eqb_spec (id s) (sceneOf targets job)) as [Heq | Hne];
       subst scene; [cbn in Hset; discriminate | exists s; auto]). }
  destruct Hfrom as (s & Hin' & Hid & Hflag & Hne).
  destruct (Hw s Hin' Hflag) as (task & Htask & Htarget).
  exists task. split; [| congruence].
  apply (In_removeAt k jobs task job Hk Htask). intros ->. congruence.
Qed.

Lemma witnessed_no_flags (targets : list Z) (jobs : list task)
  (l : list StoryboardScene) :
  Forall (fun s => isGeneratingImages s = false) l -> witnessed targets jobs l.
Proof.
  intros Hall scene Hin Hset. rewrite Forall_forall in Hall.
  specialize (Hall scene Hin). congruence.
Qed.

Lemma newScenesFrom_no_flags (i : Z) (parsed : list (Z * (string * string))) :
  Forall (fun s => isGeneratingImages s = false) (newScenesFrom i parsed).
Proof.
  revert i; induction parsed as [| [now [text description]] later IH]; intros i;
    cbn [newScenesFrom]; constructor; [reflexivity | apply IH].
Qed.

(** What the proofs carry along a run: the invariant of the queue, every
    task known and returning a promise, no rejection left unhandled, and the
    jobs of the scenes that show as generating. *)
Record sound (a : app) : Prop := mkSound {
  sound_queue : exists all, invariant all (imageGenQueue a);
  sound_tasks : tasksKnown a;
  sound_unhandled : unhandled (imageGenQueue a) = 0%nat;
  sound_spinners : witnessed (targets a) (pending (imageGenQueue a)) (scenes a)
}.

Lemma sound_scenes (a : app) (l : list StoryboardScene) :
  sound a ->
  witnessed (targets a) (pending (imageGenQueue a)) l ->
  sound (mkApp l (imageGenQueue a) (targets a)).
Proof. intros [Hq Ht Hu _] Hw. now split. Qed.

Lemma sound_trigger (ai : bool) (sceneId : Z) (a : app) :
  sound a -> sound (triggerImageGeneration ai sceneId a).
Proof.
  intros [[all Hq] Ht Hu Hs]. unfold triggerImageGeneration.
  destruct ai; [| now split; eauto].
  set (task := mkTask (List.length (targets a)) ReturnsPromise).
  destruct (add_cases task (imageGenQueue a)) as (newly & Hst & Hpe & Hqu & Hun).
  assert (Hmembers : forall x, In x newly -> x = task \/ In x (queue (imageGenQueue a))).
  { intros x Hx.
    assert (Hin : In x (queue (imageGenQueue a) ++ [task]))
      by (rewrite Hqu; apply in_or_app; now left).
    apply in_app_or in Hin. destruct Hin as [Hin | [<- | []]]; auto. }
  assert (Hwb : Forall wellBehaved newly).
  { apply Forall_forall. intros x Hx. destruct (Hmembers x Hx) as [-> | Hin];
      [reflexivity |].
    apply (Ht x). apply in_or_app; now left. }
  rewrite (promiseOf_wellBehaved newly Hwb) in Hpe.
  split; cbn [scenes imageGenQueue targets].
  - exists (all ++ [task]). now apply QueueFacts.invariant_add.
  - unfold tasksKnown; cbn [scenes imageGenQueue targets]. intros x Hx.
    rewrite Hst, Hpe in Hx. rewrite length_app. cbn [List.length].
    assert (Hold : x = task \/
                   In x (queue (imageGenQueue a) ++ pending (imageGenQueue a)
                         ++ started (imageGenQueue a))).
    { apply in_app_or in Hx. destruct Hx as [Hx | Hx].
      - assert (Hin : In x (queue (imageGenQueue a) ++ [task]))
          by (rewrite Hqu; apply in_or_app; now right).
        apply in_app_or in Hin. destruct Hin as [Hin | [<- | []]]; [right | now left].
        apply in_or_app; now left.
      - apply in_app_or in Hx. destruct Hx as [Hx | Hx].
        + apply in_app_or in Hx. destruct Hx as [Hx | Hx].
          * right. apply in_or_app; right. apply in_or_app; now left.
          * destruct (Hmembers x Hx) as [-> | Hin]; [now left | right].
            apply in_or_app; now left.
        + apply in_app_or in Hx. destruct Hx as [Hx | Hx].
          * right. apply in_or_app; right. apply in_or_app; now right.
          * destruct (Hmembers x Hx) as [-> | Hin]; [now left | right].
            apply in_or_app; now left. }
    destruct Hold as [-> | Hold]; [split; [reflexivity | cbn; lia] |].
    destruct (Ht x Hold) as [H1 H2]. split; [exact H1 | lia].
  - now rewrite Hun.
  - rewrite (newlyStarted_app _ _ newly Hst), Hpe.
    apply witnessed_startJobs. apply witnessed_more_targets; [| exact Hs].
    intros x Hx. apply (Ht x). apply in_or_app; right. apply in_or_app; now left.
Qed.

Lemma sound_finish (k : nat) (result : option (list string)) (a : app) :
  sound a -> sound (finishJob k result a).
Proof.
  intros [[all Hq] Ht Hu Hs]. unfold finishJob.
  destruct (nth_error (pending (imageGenQueue a)) k) as [job |] eqn:Hk; [| now split; eauto].
  destruct (settle_cases k (imageGenQueue a) job Hk) as (newly & Hst & Hpe & Hqu & Hun).
  assert (Hwb : Forall wellBehaved newly).
  { apply Forall_forall. intros x Hx. apply (Ht x).
    apply in_or_app; left. rewrite Hqu. apply in_or_app; now left. }
  rewrite (promiseOf_wellBehaved newly Hwb) in Hpe.
  split; cbn [scenes imageGenQueue targets].
  - exists all. now apply QueueFacts.invariant_settle.
  - unfold tasksKnown; cbn [scenes imageGenQueue targets]. intros x Hx.
    apply (Ht x). rewrite Hst, Hpe in Hx.
    apply in_app_or in Hx. destruct Hx as [Hx | Hx].
    + apply in_or_app; left. rewrite Hqu. apply in_or_app; now right.
    + apply in_app_or in Hx. destruct Hx as [Hx | Hx].
      * apply in_app_or in Hx. destruct Hx as [Hx | Hx].
        -- apply in_or_app; right. apply in_or_app; left. eapply removeAt_incl, Hx.
        -- apply in_or_app; left. rewrite Hqu. apply in_or_app; now left.
      * apply in_app_or in Hx. destruct Hx as [Hx | Hx].
        -- apply in_or_app; right. apply in_or_app; now right.
        -- apply in_or_app; left. rewrite Hqu. apply in_or_app; now left.
  - rewrite (Hun Hwb). exact Hu.
  - rewrite (newlyStarted_app _ _ newly Hst), Hpe.
    apply witnessed_startJobs. now apply witnessed_jobDone.
Qed.

Lemma sound_fold_trigger (ai : bool) (l : list StoryboardScene) (a : app) :
  sound a ->
  sound (fold_left (fun a' scene => triggerImageGeneration ai (id scene) a') l a).
Proof.
  revert a; induction l as [| scene later IH]; intros a Ha; cbn [fold_left]; [exact Ha |].
  apply IH, sound_trigger, Ha.
Qed.

Lemma sound_step (ai : bool) (a : app) (e : event) : sound a -> sound (step ai a e).
Proof.
  intros Ha. destruct e as [parsed | index | k result | sid imgIdx |]; cbn [step].
  - unfold analyzed. apply sound_fold_trigger.
    apply (sound_scenes a _ Ha), witnessed_no_flags, newScenesFrom_no_flags.
  - unfold clickRegenerate.
    destruct (nth_error (scenes a) index) as [scene |]; [| exact Ha].
    destruct (isGeneratingImages scene); [exact Ha |].
    apply sound_trigger, (sound_scenes a _ Ha).
    unfold handleRegenerateImages. apply witnessed_update; auto. apply Ha.
  - now apply sound_finish.
  - apply (sound_scenes a _ Ha). unfold onSelectImage.
    apply witnessed_update; auto. apply Ha.
  - apply (sound_scenes a _ Ha). intros scene [].
Qed.

Lemma sound_run (ai : bool) (a : app) (es : list event) : sound a -> sound (run ai a es).
Proof.
  revert a; induction es as [| e es IH]; intros a Ha; [exact Ha |].
  cbn [run fold_left]. apply IH, sound_step, Ha.
Qed.

Lemma sound_loaded (loaded : list StoryboardScene) :
  Forall (fun s => isGeneratingImages s = false) loaded ->
  sound (mkApp loaded init []).
Proof.
  intros Hflags. split; cbn [scenes imageGenQueue targets].
  - exists []. apply QueueFacts.invariant_init.
  - intros task [].
  - reflexivity.
  - now apply witnessed_no_flags.
Qed.

(** X23: the tasks the application gives to its queue never lose a slot.
    From a page that loads scenes none of which shows as generating, and
    through any analyses, clicks on regenerate, ends of jobs, selections and
    resets, [activeCount] is the number of running jobs, at most three, and
    the queue has met no rejection nobody handles. *)
Theorem application_keeps_the_queue_sound (ai : bool)
  (loaded : list StoryboardScene) (es : list event) :
  Forall (fun s => isGeneratingImages s = false) loaded ->
  activeCount (imageGenQueue (run ai (mkApp loaded init []) es))
    = Z.of_nat (List.length (pending (imageGenQueue (run ai (mkApp loaded init []) es)))) /\
  (List.length (pending (imageGenQueue (run ai (mkApp loaded init []) es))) <= 3)%nat /\
  unhandled (imageGenQueue (run ai (mkApp loaded init []) es)) = 0%nat /\
  Forall wellBehaved (started (imageGenQueue (run ai (mkApp loaded init []) es))).
Proof.
  intros Hflags.
  destruct (sound_run ai _ es (sound_loaded loaded Hflags)) as [[all Hq] Ht Hu _].
  set (a := run ai (mkApp loaded init []) es) in *.
  assert (Hwb : Forall wellBehaved (started (imageGenQueue a))).
  { apply Forall_forall. intros x Hx. apply (Ht x).
    apply in_or_app; right. apply in_or_app; now right. }
  destruct Hq as [Hslots Hbound _ _].
  rewrite (QueueFacts.leaked_wellBehaved _ Hwb) in Hslots. cbn [List.length] in Hslots.
  unfold maxConcurrent in Hbound.
  repeat split; [lia | lia | exact Hu | exact Hwb].
Qed.

Lemma application_keeps_the_queue_sound_witness :
  activeCount (imageGenQueue (run true (mkApp [Audio.eightChars] init [])
                                [ClickRegenerate 0]))
  = Z.of_nat (List.length (pending (imageGenQueue
                (run true (mkApp [Audio.eightChars] init []) [ClickRegenerate 0])))).
Proof.
  apply (application_keeps_the_queue_sound true [Audio.eightChars] [ClickRegenerate 0]).
  repeat constructor.
Defined.



(** The converse fails.  Five scenes are analysed; the fifth waits, so its
    button is enabled, and a click queues a second job for it.  Both jobs
    come to run together, and when the first ends the scene shows as idle
    while the second still runs. *)
Example two_jobs_for_one_scene :
  let a := run true opened
             [Analyzed fiveScenes; ClickRegenerate 4;
              JobFinishes 0 None; JobFinishes 0 None; JobFinishes 0 None;
              JobFinishes 1 (Some ["img"%string])] in
  map (sceneOf (targets a)) (pending (imageGenQueue a)) = [1004; 1005]%Z /\
  map (fun s => (id s, isGeneratingImages s)) (scenes a)
  = [(1000, false); (1001, false); (1002, false); (1004, true); (1005, false)]%Z /\
  let before := run true opened
             [Analyzed fiveScenes; ClickRegenerate 4;
              JobFinishes 0 None; JobFinishes 0 None; JobFinishes 0 None] in
  map (sceneOf (targets before)) (pending (imageGenQueue before)) = [1004; 1005; 1005]%Z.
Proof. repeat split. Qed.

Lemma imagesOfResponses_none (responses : list response) :
  imagesOfResponses responses = None <-> In Rejected responses.
Proof.
  induction responses as [| [| parts] later IH]; cbn [imagesOfResponses In].
  - split; [discriminate | tauto].
  - split; auto.
  - destruct (imagesOfResponses later) as [images |]; split.
    + discriminate.
    + intros [H | H]; [discriminate | now apply IH in H].
    + intros _. right. now apply IH.
    + reflexivity.
Qed.

Lemma imagesOfResponses_some (responses : list response) :
  ~ In Rejected responses ->
  imagesOfResponses responses
  = Some (flat_map (fun r => match r with
                             | Responded (Some ps) => imagesOfParts ps
                             | _ => []
                             end) responses).
Proof.
  induction responses as [| [| parts] later IH]; intros Hno; cbn [imagesOfResponses flat_map].
  - reflexivity.
  - contradiction Hno. now left.
  - rewrite IH by (intros H; apply Hno; now right). reflexivity.
Qed.

(** X25: a batch is all or nothing.  With the Gemini model the new images
    are the inline images of the responses, in the order of the requests,
    however many each response carries; but when one request rejects, the
    images of the others are dropped: the scene keeps the images it had and
    only stops showing as generating. *)
Theorem batch_is_all_or_nothing (responses : list response) (sceneId : Z)
  (prev : list StoryboardScene) :
  (In Rejected responses ->
     jobDone sceneId (newImagesOf geminiImages responses) prev
     = generationFailed sceneId prev /\
     map images (jobDone sceneId (newImagesOf geminiImages responses) prev)
     = map images prev) /\
  (~ In Rejected responses ->
     jobDone sceneId (newImagesOf geminiImages responses) prev
     = generationCompleted sceneId
         (flat_map (fun r => match r with
                             | Responded (Some ps) => imagesOfParts ps
                             | _ => []
                             end) responses) prev).
Proof.
  split.
  - intros Hrej. apply imagesOfResponses_none in Hrej.
    unfold jobDone, newImagesOf. rewrite Hrej. split; [reflexivity |].
    unfold generationFailed, updateScene. rewrite map_map.
    apply map_ext. intros s. now destruct (id s =? sceneId)%Z.
  - intros Hno. unfold jobDone, newImagesOf. now rewrite imagesOfResponses_some.
Qed.

Lemma batch_is_all_or_nothing_witness :
  jobDone 7 (newImagesOf geminiImages
               [Responded (Some [InlineData "image/png" "AAAA"]); Rejected;
                Responded None; Responded None]) [thirdPicked]
  = generationFailed 7 [thirdPicked].
Proof.
  refine (proj1 (proj1 (batch_is_all_or_nothing
            [Responded (Some [InlineData "image/png" "AAAA"]); Rejected;
             Responded None; Responded None] 7 [thirdPicked]) _)).
  right; now left.
Defined.

(** X26: a regeneration that fails loses the images the scene had.  After
    a click on regenerate and a batch in which a request rejected, and also
    when [ai] is null so that no job is queued at all, every scene with the
    id of the clicked one has no images; the other scenes are as they
    were. *)
Theorem failed_regeneration_loses_the_images (scene : StoryboardScene)
  (prev : list StoryboardScene) (responses : list response) (index : nat)
  (q : RequestQueue.t) (known : list Z) :
  In Rejected responses ->
  nth_error prev index = Some scene -> isGeneratingImages scene = false ->
  Forall (fun s => id s = id scene -> images s = [] /\ isGeneratingImages s = false)
    (jobDone (id scene) (newImagesOf geminiImages responses)
       (generationStarted (id scene) (handleRegenerateImages scene prev))) /\
  clickRegenerate false index (mkApp prev q known)
    = mkApp (handleRegenerateImages scene prev) q known /\
  Forall (fun s => id s = id scene -> images s = [])
    (scenes (clickRegenerate false index (mkApp prev q known))) /\
  (forall s, In s prev -> id s <> id scene ->
     In s (jobDone (id scene) (newImagesOf geminiImages responses)
             (generationStarted (id scene) (handleRegenerateImages scene prev)))).
Proof.
  intros Hrej Hscene Hidle.
  apply imagesOfResponses_none in Hrej.
  assert (Hclick : clickRegenerate false index (mkApp prev q known)
                   = mkApp (handleRegenerateImages scene prev) q known).
  { unfold clickRegenerate. cbn [scenes]. now rewrite Hscene, Hidle. }
  unfold jobDone, newImagesOf. rewrite Hrej, Hclick. cbn [scenes].
  assert (Hmap : generationFailed (id scene)
                   (generationStarted (id scene) (handleRegenerateImages scene prev))
                 = map (fun s => if (id s =? id scene)%Z
                                 then withIsGeneratingImages false
                                        (withIsGeneratingImages true (withImages [] s))
                                 else s) prev).
  { unfold generationFailed, generationStarted, handleRegenerateImages, updateScene.
    rewrite !map_map. apply map_ext. intros s.
    destruct (id s =? id scene)%Z eqn:E;
      cbn [id withImages withIsGeneratingImages]; rewrite ?E;
      cbn [id withImages withIsGeneratingImages]; rewrite ?E; reflexivity. }
  assert (Hshape : forall s',
            In s' (generationFailed (id scene)
                     (generationStarted (id scene) (handleRegenerateImages scene prev))) <->
            exists s, In s prev /\
              s' = if (id s =? id scene)%Z
                   then withIsGeneratingImages false
                          (withIsGeneratingImages true (withImages [] s))
                   else s).
  { intros s'. rewrite Hmap, in_map_iff.
    split; intros (s & H1 & H2); exists s; split; auto. }
  split; [| split; [reflexivity | split]].
  - apply Forall_forall. intros s' Hin. apply Hshape in Hin.
    destruct Hin as (s & _ & ->).
    destruct (Z.eqb_spec (id s) (id scene)); [cbn; auto | intros; contradiction].
  - apply Forall_forall. intros s' Hin.
    unfold handleRegenerateImages, updateScene in Hin. apply in_map_iff in Hin.
    destruct Hin as (s & <- & _).
    destruct (Z.eqb_spec (id s) (id scene)); [reflexivity | intros; contradiction].
  - intros s Hin Hne. apply Hshape. exists s. split; [exact Hin |].
    apply Z.eqb_neq in Hne. now rewrite Hne.
Qed.

Lemma failed_regeneration_loses_the_images_witness :
  Forall (fun s => id s = 7%Z -> images s = [] /\ isGeneratingImages s = false)
    (jobDone 7 (newImagesOf geminiImages [Rejected])
       (generationStarted 7 (handleRegenerateImages thirdPicked [thirdPicked]))).
Proof.
  apply (failed_regeneration_loses_the_images thirdPicked [thirdPicked] [Rejected] 0
           init []);
    [now left | reflexivity | reflexivity].
Defined.

Lemma newScenesFrom_ids_from (floor i : Z) (parsed : list (Z * (string * string))) :
  Forall (fun entry => (floor <= fst entry)%Z) parsed ->
  Forall (fun s => (floor + i <= id s)%Z) (newScenesFrom i parsed).
Proof.
  revert i; induction parsed as [| [now [text description]] later IH]; intros i Hall;
    cbn [newScenesFrom]; constructor.
  - inversion Hall; subst. cbn in *. lia.
  - inversion Hall; subst.
    eapply Forall_impl; [| apply (IH (i + 1)%Z); assumption].
    cbn. intros s Hs. lia.
Qed.

Lemma clockAdvances_floor (now : Z) (payload : string * string)
  (later : list (Z * (string * string))) :
  Generation.clockAdvances ((now, payload) :: later) ->
  Forall (fun entry => (now <= fst entry)%Z) later.
Proof.
  revert now payload; induction later as [| [next payload'] later IH];
    intros now payload Hclock; constructor.
  - cbn in Hclock. cbn. tauto.
  - destruct Hclock as [Hle Hrest].
    eapply Forall_impl; [| apply (IH next payload' Hrest)].
    cbn. intros entry Hentry. lia.
Qed.

Lemma newScenesFrom_ascending (i : Z) (parsed : list (Z * (string * string))) :
  Generation.clockAdvances parsed -> Persistence.ascending (newScenesFrom i parsed).
Proof.
  revert i; induction parsed as [| [now [text description]] later IH]; intros i Hclock;
    cbn [newScenesFrom]; [constructor |].
  apply PersistenceFacts.ascending_cons. split; [apply IH, Hclock |].
  pose proof (clockAdvances_floor now (text, description) later Hclock) as Hfloor.
  eapply Forall_impl; [| apply (newScenesFrom_ids_from now (i + 1) later Hfloor)].
  cbn. intros s Hs. lia.
Qed.

Lemma newScenesFrom_fresh (i : Z) (parsed : list (Z * (string * string))) :
  Forall (fun s => images s = [] /\ selectedImageIndex s = 0%Z /\
                   isGeneratingImages s = false /\
                   audioData s = None /\ audioDuration s = None)
         (newScenesFrom i parsed) /\
  List.length (newScenesFrom i parsed) = List.length parsed.
Proof.
  revert i; induction parsed as [| [now [text description]] later IH]; intros i;
    cbn [newScenesFrom List.length]; [split; [constructor | reflexivity] |].
  destruct (IH (i + 1)%Z) as [H1 H2]. split; [constructor; [cbn; auto | exact H1] |].
  now rewrite H2.
Qed.

(** X27: the scenes of an analysis come back from the database as they
    were created, and in their order.  When the clock does not go back while
    the scenes are created, their ids [Date.now() + i] ascend strictly; all
    of them are created with no image, index 0, no audio and not
    generating; and saving them into the cleared store and loading gives
    the same list. *)
Theorem analysed_scenes_survive_a_reload (parsed : list (Z * (string * string))) :
  Generation.clockAdvances parsed ->
  Persistence.ascending (newScenesFrom 0 parsed) /\
  Forall (fun s => images s = [] /\ selectedImageIndex s = 0%Z /\
                   isGeneratingImages s = false /\
                   audioData s = None /\ audioDuration s = None)
         (newScenesFrom 0 parsed) /\
  List.length (newScenesFrom 0 parsed) = List.length parsed /\
  Persistence.loadScenes Persistence.DbOk
    (Persistence.saveEffect Persistence.allOk (newScenesFrom 0 parsed) [])
  = Some (newScenesFrom 0 parsed).
Proof.
  intros Hclock.
  pose proof (newScenesFrom_ascending 0 parsed Hclock) as Hasc.
  split; [exact Hasc |]. split; [| split].
  - apply newScenesFrom_fresh.
  - apply newScenesFrom_fresh.
  - destruct (PersistenceFacts.reload_sorted (newScenesFrom 0 parsed) [])
      as [Hload _];
      [apply PersistenceFacts.ascending_NoDup, Hasc | constructor | intros x [] |].
    rewrite Hload. f_equal. apply PersistenceFacts.sortById_ascending_id, Hasc.
Qed.

Lemma analysed_scenes_survive_a_reload_witness :
  Persistence.loadScenes Persistence.DbOk
    (Persistence.saveEffect Persistence.allOk (newScenesFrom 0 fiveScenes) [])
  = Some (newScenesFrom 0 fiveScenes).
Proof.
  apply (analysed_scenes_survive_a_reload fiveScenes).
  cbn. lia.
Defined.

End GenerationFacts.

(** ** A burst of tasks *)

Module BurstFacts.
Import RequestQueue.

Lemma afterBurst_add (tasks : list task) (task : task) :
  wellBehaved task ->
  fst (add task (afterBurst tasks)) = afterBurst (tasks ++ [task]).
Proof.
  intros Hreturns.
  unfold afterBurst, add, push, process; cbn [queue activeCount pending started unhandled].
  rewrite !length_app. cbn [List.length].
  destruct (Nat.lt_ge_cases (List.length tasks) 3) as [Hfew | Hmany].
  - assert (Hlen : (List.length (tasks ++ [task]) <= 3)%nat)
      by (rewrite length_app; cbn [List.length]; lia).
    rewrite (skipn_all2 tasks) by lia.
    rewrite (firstn_all2 tasks) by lia.
    rewrite (firstn_all2 (tasks ++ [task]) Hlen), (skipn_all2 (tasks ++ [task]) Hlen).
    replace (Nat.min 3 (List.length tasks)) with (List.length tasks) by lia.
    replace (Nat.min 3 (List.length tasks + 1)) with (S (List.length tasks)) by lia.
    destruct (Z.leb_spec maxConcurrent (Z.of_nat (List.length tasks)));
      [unfold maxConcurrent in *; lia |].
    cbn [orb List.app List.length Nat.add Nat.eqb fst]. unfold wellBehaved in Hreturns.
    rewrite Hreturns.
    cbn [queue activeCount pending started unhandled fst].
    replace (Z.of_nat (S (List.length tasks))) with (Z.of_nat (List.length tasks) + 1)%Z
      by lia.
    reflexivity.
  - replace (Nat.min 3 (List.length tasks)) with 3%nat by lia.
    replace (Nat.min 3 (List.length tasks + 1)) with 3%nat by lia.
    cbn [Z.leb Z.of_nat Pos.of_succ_nat maxConcurrent orb fst].
    rewrite skipn_app, !firstn_app.
    replace (3 - List.length tasks)%nat with 0%nat by lia.
    cbn [firstn skipn]. now rewrite !app_nil_r.
Qed.

(** X28: a burst on an idle queue.  When tasks whose call returns a
    promise are added one after the other to a new queue, and nothing
    settles meanwhile, the first three are started at once, in the order
    added, and all the others wait behind them in that order. *)
Theorem burst_starts_the_first_three (tasks : list task) :
  Forall wellBehaved tasks ->
  run init (map Add tasks)
  = mk (skipn 3 tasks) (Z.of_nat (Nat.min 3 (List.length tasks)))
       (firstn 3 tasks) (firstn 3 tasks) 0.
Proof.
  induction tasks as [| task tasks IH] using rev_ind; intros Hwb; [reflexivity |].
  apply Forall_app in Hwb. destruct Hwb as [Hwb Htask].
  inversion Htask as [| ? ? Hreturns _]; subst.
  rewrite map_app, QueueFacts.run_app, (IH Hwb). cbn [map run fold_left step].
  exact (afterBurst_add tasks task Hreturns).
Qed.

Lemma burst_starts_the_first_three_witness :
  run init (map Add [jobA; jobB; jobC; jobD])
  = mk (skipn 3 [jobA; jobB; jobC; jobD])
       (Z.of_nat (Nat.min 3 (List.length [jobA; jobB; jobC; jobD])))
       (firstn 3 [jobA; jobB; jobC; jobD]) (firstn 3 [jobA; jobB; jobC; jobD]) 0.
Proof.
  apply (burst_starts_the_first_three [jobA; jobB; jobC; jobD]).
  repeat constructor.
Defined.

End BurstFacts.

(** ** The first analysis *)

Module AnalysisFacts.
Import Storyboard RequestQueue Generation.









End AnalysisFacts.

(** ** The text handed to the JSON parser *)

Module JsonFacts.
Import Json.
Local Open Scope Z_scope.

Lemma startsWith_fence (text : jsString) :
  startsWith fence text = true <->
  exists rest, text = backtick :: backtick :: backtick :: rest.
Proof.
  unfold fence, backtick. split.
  - destruct text as [| a [| b [| c rest]]]; cbn [startsWith];
      rewrite ?andb_false_r;
      try discriminate.
    intros H. apply andb_true_iff in H. destruct H as [Ha H].
    apply andb_true_iff in H. destruct H as [Hb H].
    apply andb_true_iff in H. destruct H as [Hc _].
    apply Z.eqb_eq in Ha, Hb, Hc. subst. now exists rest.
  - intros [rest ->]. reflexivity.
Qed.

(** What is left of a text without two leading backticks has not two
    leading backticks either. *)
Lemma replaceAll_fence_head (text : jsString) :
  (forall rest, text <> backtick :: backtick :: rest) ->
  forall rest, replaceAll fence text <> backtick :: backtick :: rest.
Proof.
  unfold replaceAll. intros Hno rest.
  destruct text as [| a text]; [discriminate |].
  cbn [removeAll].
  destruct (startsWith fence (a :: text)) eqn:Ea.
  { apply startsWith_fence in Ea. destruct Ea as [rest' Ea]. now contradiction (Hno _ Ea). }
  destruct text as [| b text]; [discriminate |].
  cbn [removeAll].
  destruct (startsWith fence (b :: text)) eqn:Eb.
  { apply startsWith_fence in Eb. destruct Eb as [rest' Eb].
    injection Eb as -> _. intros H. injection H as -> _. now contradiction (Hno text). }
  intros H. injection H as -> -> _. now contradiction (Hno text).
Qed.

Lemma removeAll_fence_free (text : jsString) (skip : nat) :
  occursIn fence (removeAll fence skip text) = false.
Proof.
  revert skip; induction text as [| c text IH]; intros skip; [reflexivity |].
  cbn [removeAll]. destruct skip as [| skip]; [| apply IH].
  destruct (startsWith fence (c :: text)) eqn:Hmatch; [apply IH |].
  cbn [occursIn]. rewrite IH, orb_false_r.
  destruct (startsWith fence (c :: removeAll fence 0 text)) eqn:Hout; [| reflexivity].
  apply startsWith_fence in Hout. destruct Hout as [rest Hout].
  injection Hout as -> Hout.
  exfalso. apply (replaceAll_fence_head text) with (rest := rest); [| exact Hout].
  intros rest' ->. now rewrite (proj2 (startsWith_fence _) (ex_intro _ rest' eq_refl)) in Hmatch.
Qed.

Lemma startsWith_firstn (pattern text : jsString) (n : nat) :
  startsWith pattern (firstn n text) = true -> startsWith pattern text = true.
Proof.
  revert text n; induction pattern as [| p pattern IH]; intros text n; [reflexivity |].
  destruct text as [| c text], n as [| n]; cbn; try discriminate.
  intros H. apply andb_true_iff in H. destruct H as [-> H]. cbn. now apply (IH _ n).
Qed.

Lemma occursIn_firstn (pattern text : jsString) (n : nat) :
  occursIn pattern text = false -> occursIn pattern (firstn n text) = false.
Proof.
  revert n; induction text as [| c text IH]; intros n H.
  - now rewrite firstn_nil.
  - cbn [occursIn] in H. apply orb_false_iff in H. destruct H as [Hhead Htail].
    destruct n as [| n].
    + cbn [firstn occursIn]. rewrite orb_false_r.
      destruct (startsWith pattern []) eqn:E; [| reflexivity].
      destruct pattern; [discriminate Hhead | discriminate E].
    + cbn [firstn occursIn]. rewrite (IH n Htail), orb_false_r.
      destruct (startsWith pattern (c :: firstn n text)) eqn:E; [| reflexivity].
      apply (startsWith_firstn pattern (c :: text) (S n)) in E. congruence.
Qed.

Lemma occursIn_skipn (pattern text : jsString) (n : nat) :
  occursIn pattern text = false -> occursIn pattern (skipn n text) = false.
Proof.
  revert text; induction n as [| n IH]; intros text H; [exact H |].
  destruct text as [| c text]; [exact H |].
  cbn [skipn]. apply IH. cbn [occursIn] in H.
  now apply orb_false_iff in H.
Qed.

Lemma occursIn_substring (pattern text : jsString) (a b : Z) :
  occursIn pattern text = false -> occursIn pattern (substring a b text) = false.
Proof. intros H. unfold substring. now apply occursIn_firstn, occursIn_skipn. Qed.

(** [indexOf] finds the first occurrence. *)
Lemma indexOf_spec (c : Z) (text : jsString) :
  indexOf c text = -1 /\ ~ In c text \/
  exists before after,
    text = before ++ c :: after /\ ~ In c before /\
    indexOf c text = Z.of_nat (List.length before).
Proof.
  induction text as [| x text IH]; [left; split; [reflexivity | intros []] |].
  cbn [indexOf]. destruct (Z.eqb_spec x c) as [-> | Hx].
  - right. exists [], text. repeat split. intros [].
  - destruct IH as [[-> Hout] | (before & after & -> & Hbefore & ->)].
    + left. split; [reflexivity |]. intros [H | H]; [congruence | contradiction].
    + right. exists (x :: before), after. repeat split.
      * intros [H | H]; [congruence | contradiction].
      * destruct (Z.eqb_spec (Z.of_nat (List.length before)) (-1)); [lia |].
        cbn [List.length]. lia.
Qed.

(** [lastIndexOf] finds the last occurrence. *)
Lemma lastIndexOf_spec (c : Z) (text : jsString) :
  lastIndexOf c text = -1 /\ ~ In c text \/
  exists before after,
    text = before ++ c :: after /\ ~ In c after /\
    lastIndexOf c text = Z.of_nat (List.length before).
Proof.
  induction text as [| x text IH]; [left; split; [reflexivity | intros []] |].
  cbn [lastIndexOf].
  destruct IH as [[-> Hout] | (before & after & -> & Hafter & ->)].
  - cbn. destruct (Z.eqb_spec x c) as [-> | Hx].
    + right. exists [], text. repeat split. exact Hout.
    + left. split; [reflexivity |]. intros [H | H]; [congruence | contradiction].
  - right. exists (x :: before), after. repeat split; [exact Hafter |].
    destruct (Z.eqb_spec (Z.of_nat (List.length before)) (-1)); [lia |].
    cbn [List.length]. lia.
Qed.

Lemma substring_middle (before middle after : jsString) :
  substring (Z.of_nat (List.length before))
            (Z.of_nat (List.length before + List.length middle))
            (before ++ middle ++ after) = middle.
Proof.
  unfold substring. rewrite !length_app.
  replace (Z.min (Z.max (Z.of_nat (List.length before)) 0) _)
    with (Z.of_nat (List.length before)) by lia.
  replace (Z.min (Z.max (Z.of_nat (List.length before + List.length middle)) 0) _)
    with (Z.of_nat (List.length before + List.length middle)) by lia.
  replace (Z.to_nat (Z.min _ _)) with (List.length before) by lia.
  replace (Z.to_nat (_ - _)) with (List.length middle) by lia.
  rewrite skipn_app, skipn_all, Nat.sub_diag. cbn [skipn List.app].
  rewrite firstn_app, firstn_all, Nat.sub_diag. cbn [firstn]. apply app_nil_r.
Qed.

Lemma substring_swap (a b : Z) (text : jsString) :
  substring a b text = substring b a text.
Proof.
  unfold substring.
  rewrite (Z.max_comm (Z.min (Z.max a 0) _)), (Z.min_comm (Z.min (Z.max a 0) _)).
  reflexivity.
Qed.

(** Two decompositions of one text, the first marker before the second. *)
Lemma split_twice (text before after before' after' : jsString) (c d : Z) :
  text = before ++ c :: after -> text = before' ++ d :: after' ->
  (List.length before < List.length before')%nat ->
  exists middle, after = middle ++ d :: after' /\ before' = before ++ c :: middle.
Proof.
  intros -> Heq Hlen.
  revert before' Heq Hlen; induction before as [| x before IH]; intros before' Heq Hlen.
  - destruct before' as [| y before']; [cbn in Hlen; lia |].
    cbn in Heq. injection Heq as -> ->. now exists before'.
  - destruct before' as [| y before']; [cbn in Hlen; lia |].
    cbn in Heq, Hlen. injection Heq as -> Heq.
    destruct (IH before' Heq ltac:(lia)) as (middle & -> & ->).
    now exists middle.
Qed.

(** X30: what [cleanJson] parses.  No run of three backticks is left in the
    text handed to [JSON.parse].  When the first opening brace of the text
    without its fences comes before the last closing brace, the parsed text
    begins with the one and ends with the other; when the last closing brace
    comes first, [substring] swaps its arguments and the parsed text is the
    text between the two, with no brace in it. *)
Theorem cleanJson_parses_what_the_braces_span (text : jsString) :
  occursIn fence (cleaned text) = false /\
  (0 <= indexOf openBrace (replaceAll fence (replaceAll fenceJson text))
     < lastIndexOf closeBrace (replaceAll fence (replaceAll fenceJson text)) ->
   exists middle, cleaned text = openBrace :: middle ++ [closeBrace]) /\
  (0 <= lastIndexOf closeBrace (replaceAll fence (replaceAll fenceJson text))
     < indexOf openBrace (replaceAll fence (replaceAll fenceJson text)) ->
   ~ In openBrace (cleaned text) /\ ~ In closeBrace (cleaned text)).
Proof.
  unfold cleaned.
  set (c := replaceAll fence (replaceAll fenceJson text)).
  assert (Hfree : occursIn fence c = false) by apply removeAll_fence_free.
  split; [| split].
  - destruct (_ && _); [now apply occursIn_substring | exact Hfree].
  - intros Horder.
    destruct (indexOf_spec openBrace c)
      as [[Hf _] | (before & after & Hc & _ & Hf)]; [lia |].
    destruct (lastIndexOf_spec closeBrace c)
      as [[Hl _] | (before' & after' & Hc' & _ & Hl)]; [lia |].
    rewrite Hf, Hl in *.
    destruct (split_twice c before after before' after' openBrace closeBrace Hc Hc'
                ltac:(lia)) as (middle & Hafter & Hbefore').
    exists middle.
    destruct (Z.eqb_spec (Z.of_nat (List.length before)) (-1)); [lia |].
    destruct (Z.eqb_spec (Z.of_nat (List.length before')) (-1)); [lia |].
    cbn [negb andb].
    rewrite Hc, Hafter, Hbefore'.
    replace (Z.of_nat (List.length (before ++ openBrace :: middle)) + 1)
      with (Z.of_nat (List.length before
                      + List.length (openBrace :: middle ++ [closeBrace]))).
    2: { rewrite length_app. cbn [List.length]. rewrite length_app. cbn [List.length]. lia. }
    replace (before ++ openBrace :: middle ++ closeBrace :: after')
      with (before ++ (openBrace :: middle ++ [closeBrace]) ++ after')
      by (cbn [List.app]; now rewrite <- app_assoc).
    apply substring_middle.
  - intros Horder.
    destruct (indexOf_spec openBrace c)
      as [[Hf _] | (before & after & Hc & Hbefore & Hf)]; [lia |].
    destruct (lastIndexOf_spec closeBrace c)
      as [[Hl _] | (before' & after' & Hc' & Hafter' & Hl)]; [lia |].
    rewrite Hf, Hl in *.
    destruct (split_twice c before' after' before after closeBrace openBrace Hc' Hc
                ltac:(lia)) as (middle & Hafter & Hbefore').
    destruct (Z.eqb_spec (Z.of_nat (List.length before)) (-1)); [lia |].
    destruct (Z.eqb_spec (Z.of_nat (List.length before')) (-1)); [lia |].
    cbn [negb andb].
    rewrite substring_swap.
    assert (Hsub : substring (Z.of_nat (List.length before') + 1)
                     (Z.of_nat (List.length before)) c = middle).
    { rewrite Hc', Hafter, Hbefore'.
      replace (Z.of_nat (List.length before') + 1)
        with (Z.of_nat (List.length (before' ++ [closeBrace])))
        by (rewrite length_app; cbn [List.length]; lia).
      replace (Z.of_nat (List.length (before' ++ closeBrace :: middle)))
        with (Z.of_nat (List.length (before' ++ [closeBrace]) + List.length middle))
        by (rewrite !length_app; cbn [List.length]; lia).
      replace (before' ++ closeBrace :: middle ++ openBrace :: after)
        with ((before' ++ [closeBrace]) ++ middle ++ openBrace :: after)
        by (now rewrite <- app_assoc).
      apply substring_middle. }
    rewrite Hsub. split.
    + intros Hin. apply Hbefore. rewrite Hbefore'. apply in_or_app. right. now right.
    + intros Hin. apply Hafter'. rewrite Hafter. apply in_or_app. now left.
Qed.

Lemma cleanJson_parses_what_the_braces_span_witness :
  (exists middle, cleaned fencedObject = openBrace :: middle ++ [closeBrace]) /\
  ~ In openBrace (cleaned bracesTheWrongWay).
Proof.
  split.
  - apply (proj1 (proj2 (cleanJson_parses_what_the_braces_span fencedObject))).
    vm_compute. split; [discriminate | reflexivity].
  - apply (proj2 (proj2 (cleanJson_parses_what_the_braces_span bracesTheWrongWay))).
    vm_compute. split; [discriminate | reflexivity].
Defined.

End JsonFacts.
